(** * HiCap analysis tool: wells.py

    A shallow embedding of [hicap_analysis/wells.py]: the analytical response
    functions ([_theis], [_glover], [_sdf], [_walton]), the two method
    registries, the time-superposition code of
    [WellResponse._calc_depletion], the lazily cached properties of
    [WellResponse] and [Well], and the constructor of [Well].

    Numbers.  Python floats and numpy float64 values are read as real numbers
    (the type [R] of the Standard Library): rounding, infinities and NaN are
    outside this reading, and a numpy division or square root keeps the value
    the Standard Library gives it where the mathematical one is undefined; a
    division of Python scalars by zero raises [ZeroDivisionError].  The module
    [IEEE] embeds the depletion code a second time, with the infinities, the
    negative zero and NaN of float arithmetic and with a log of the calls of
    the depletion method; the properties that depend on a division by zero
    are stated there.
    Python ints and numpy int64 day indices are [Z]; all indices that occur
    are far below 2^63.  [scipy.special.exp1] and [scipy.special.erfc] are
    library functions and enter as the two fields of the class [Special]. *)

From Stdlib Require Import Reals ZArith String Ascii List Bool Lia Lra.
Import ListNotations.

Set Implicit Arguments.

(** ** Exceptions and results *)

Inductive exn : Type :=
| KeyError
| ValueError
| TypeError
| AttributeError
| AssertionError
| ZeroDivisionError.

Inductive result (A : Type) : Type :=
| Ok (a : A)
| Raise (e : exn).

Arguments Ok {A} a.
Arguments Raise {A} e.

Definition rbind {A B : Type} (m : result A) (k : A -> result B) : result B :=
  match m with
  | Ok a => k a
  | Raise e => Raise e
  end.

Declare Scope result_scope.
Delimit Scope result_scope with res.
Notation "x <- m ;; k" := (rbind m (fun x => k))
  (at level 61, m at next level, right associativity) : result_scope.

(** [x is None]. *)
Definition is_none {A : Type} (x : option A) : bool :=
  match x with
  | None => true
  | Some _ => false
  end.

(** ** Strings and dictionaries *)

Definition lower_ascii (c : ascii) : ascii :=
  let n := nat_of_ascii c in
  if (65 <=? n)%nat && (n <=? 90)%nat then ascii_of_nat (n + 32) else c.

(** [str.lower] on the ASCII range. *)
Fixpoint lower (s : string) : string :=
  match s with
  | EmptyString => EmptyString
  | String c r => String (lower_ascii c) (lower r)
  end.

(** A Python [dict] with string keys, in insertion order. *)
Definition dict (V : Type) : Type := list (string * V).

Fixpoint dict_get {V : Type} (d : dict V) (k : string) : option V :=
  match d with
  | [] => None
  | (k', v) :: r => if String.eqb k' k then Some v else dict_get r k
  end.

(** [d[k]]: [KeyError] when the key is absent. *)
Definition getitem {V : Type} (d : dict V) (k : string) : result V :=
  match dict_get d k with
  | Some v => Ok v
  | None => Raise KeyError
  end.

(** [d[k] = v]: overwrite in place, or append a new key. *)
Fixpoint dict_set {V : Type} (k : string) (v : V) (d : dict V) : dict V :=
  match d with
  | [] => [(k, v)]
  | (k', v') :: r =>
      if String.eqb k' k then (k', v) :: r else (k', v') :: dict_set k v r
  end.

Definition keys {V : Type} (d : dict V) : list string := map fst d.

Definition mem (k : string) (l : list string) : bool :=
  existsb (String.eqb k) l.

(** [set(a) - set(b)], as the list of the elements of [a] missing from [b]. *)
Definition set_diff (a b : list string) : list string :=
  filter (fun k => negb (mem k b)) a.

(** ** numpy values *)

(** A float scalar or a one-dimensional float array. *)
Inductive ndval : Type :=
| Scalar (x : R)
| Arr (l : list R).

(** What a caller may pass for [time] or [dist]: a float, a Python list or
    an array. *)
Inductive pyarg : Type :=
| PyFloat (x : R)
| PyList (l : list R)
| PyArray (l : list R).

(** [if isinstance(x, list): x = np.array(x)]. *)
Definition list_to_array (x : pyarg) : ndval :=
  match x with
  | PyFloat v => Scalar v
  | PyList l => Arr l
  | PyArray l => Arr l
  end.

(** An elementwise operation with one array operand. *)
Definition nd_map (f : R -> R) (v : ndval) : ndval :=
  match v with
  | Scalar x => Scalar (f x)
  | Arr l => Arr (map f l)
  end.

Fixpoint map2 {A B C : Type} (f : A -> B -> C) (l1 : list A) (l2 : list B)
  : list C :=
  match l1, l2 with
  | a :: r1, b :: r2 => f a b :: map2 f r1 r2
  | _, _ => []
  end.

(** An elementwise binary operation with numpy's broadcasting of shapes
    [()], [(m,)] and [(n,)]: two arrays need [m = n], [m = 1] or [n = 1]. *)
Definition nd_binop (f : R -> R -> R) (a b : ndval) : result ndval :=
  match a, b with
  | Scalar x, Scalar y => Ok (Scalar (f x y))
  | Scalar x, Arr l => Ok (Arr (map (f x) l))
  | Arr l, Scalar y => Ok (Arr (map (fun x => f x y) l))
  | Arr l1, Arr l2 =>
      if (length l1 =? length l2)%nat then Ok (Arr (map2 f l1 l2))
      else match l1, l2 with
           | [x], _ => Ok (Arr (map (f x) l2))
           | _, [y] => Ok (Arr (map (fun x => f x y) l1))
           | _, _ => Raise ValueError
           end
  end.

(** [a / b]: between two Python floats a zero divisor raises
    [ZeroDivisionError]; with an array operand the division is numpy's and
    raises nothing for a zero divisor. *)
Definition truediv (a b : ndval) : result ndval :=
  match a, b with
  | Scalar x, Scalar y =>
      if Req_EM_T y 0 then Raise ZeroDivisionError else Ok (Scalar (x / y))
  | _, _ => nd_binop Rdiv a b
  end.

(** [acc += v] on a float array [acc]. *)
Definition iadd (acc : list R) (v : ndval) : result (list R) :=
  match v with
  | Scalar x => Ok (map (fun a => (a + x)%R) acc)
  | Arr l =>
      if (length l =? length acc)%nat then Ok (map2 Rplus acc l)
      else match l with
           | [x] => Ok (map (fun a => (a + x)%R) acc)
           | _ => Raise ValueError
           end
  end.

(** ** Integer arrays and slices *)

Section IntArrays.
Local Open Scope Z_scope.

(** [np.arange(a, b)]. *)
Definition arange (a b : Z) : list Z :=
  map (fun i => a + Z.of_nat i) (seq 0 (Z.to_nat (b - a))).

Definition zeros_like (l : list Z) : list Z := repeat 0 (length l).

Definition len {A : Type} (l : list A) : Z := Z.of_nat (length l).

(** A slice bound [i] on a sequence of length [n]: a negative bound counts
    from the end, and the result is clipped to [0..n]. *)
Definition slice_bound (n i : Z) : Z :=
  if i <? 0 then Z.max 0 (i + n) else Z.min i n.

(** [l[start:stop]]. *)
Definition get_slice {A : Type} (l : list A) (start stop : Z) : list A :=
  let s := slice_bound (len l) start in
  let e := slice_bound (len l) stop in
  firstn (Z.to_nat (e - s)) (skipn (Z.to_nat s) l).

(** [l[start:] = src]: the source must have the length of the slice, or the
    length 1 (it is then broadcast); otherwise numpy raises [ValueError]. *)
Definition set_tail (l : list Z) (start : Z) (src : list Z)
  : result (list Z) :=
  let s := Z.to_nat (slice_bound (len l) start) in
  let k := (length l - s)%nat in
  if (length src =? k)%nat then Ok (firstn s l ++ src)
  else match src with
       | [x] => Ok (firstn s l ++ repeat x k)
       | _ => Raise ValueError
       end.

(** [range(a, b)]. *)
Definition range (a b : Z) : list Z := arange a b.

End IntArrays.

(** ** Response functions *)

(** [scipy.special]. *)
Class Special : Type := {
  exp1 : R -> R;
  erfc : R -> R
}.

Section ResponseFunctions.
Context {sps : Special}.
Local Open Scope R_scope.

(** Theis drawdown.  Both divisions are divisions of Python floats when
    [time] and [dist] are floats, and raise on a zero divisor. *)
Definition _theis (T S : R) (time dist : pyarg) (Q : R) : result ndval :=
  let time := list_to_array time in
  let dist := list_to_array dist in
  (u <- truediv (nd_map (fun d => d ^ 2 * S) dist)
                (nd_map (fun t => 4 * T * t) time) ;;
   c <- (if Req_EM_T (4 * PI * T) 0 then Raise ZeroDivisionError
         else Ok (Q / (4 * PI * T))) ;;
   Ok (nd_map (fun x => c * exp1 x) u))%res.

(** Glover depletion, over the reals: where numpy returns NaN (a negative
    radicand) or an infinity, the value is the one of the Standard Library;
    [IEEE._glover] has these values. *)
Definition _glover (T S : R) (time dist : ndval) (Q : R) : result ndval :=
  (u <- truediv (nd_map (fun d => d ^ 2 * S) dist)
                (nd_map (fun t => 4 * T * t) time) ;;
   Ok (nd_map (fun x => Q * erfc (sqrt x)) u))%res.


Definition walton_I (G : R) : R :=
  1 + 0.0705230784 * G + 0.0422820123 * G ^ 2 + 9.2705272e-03 * G ^ 3.

Definition walton_J (G : R) : R :=
  (walton_I G + 1.52014e-04 * G ^ 4 + 2.76567e-04 * G ^ 5
   + 4.30638e-05 * G ^ 6) ^ 16.

(** Walton depletion.  [dist] is a float (it is tested by [if dist > 0]);
    [time] may be an array, and then [G], [I] and [J] are arrays of its
    shape.  Over the reals: at a time 0 of an array, or with [T] or [S]
    not positive, numpy computes with an infinity or NaN, and
    [IEEE._walton] has these values. *)
Definition _walton (T S dist : R) (time : ndval) (Q : R) : ndval :=
  let G :=
    if Rlt_dec 0 dist
    then nd_map (fun t => dist / sqrt (0.535 * t * T / S)) time
    else Scalar 0 in
  nd_map (fun g => Q * (1 / walton_J g) / 3600 / 24) G.

(** The methods as they are called: positionally, with
    [(T, S, dist, time, Q)]. *)
Definition dd_fn : Type := R -> R -> pyarg -> pyarg -> R -> result ndval.
Definition depl_fn : Type := R -> R -> R -> ndval -> R -> result ndval.

Definition ALL_DD_METHODS : dict dd_fn := [("theis"%string, _theis)].

(** [_glover]'s third parameter is [time] and its fourth is [dist];
    [_walton]'s third is [dist] and its fourth is [time]. *)
Definition ALL_DEPL_METHODS : dict depl_fn :=
  [("glover"%string, fun T S a3 a4 Q => _glover T S (Scalar a3) a4 Q);
   ("walton"%string, fun T S a3 a4 Q => Ok (_walton T S a3 a4 Q))].

Definition GPM2CFD : R := 60 * 24 / 7.48.

End ResponseFunctions.

(** ** Methods that mutate their object

    A method is a function from the object's state to a result and the new
    state; an exception leaves the state as it was when it was raised. *)

Definition M (St A : Type) : Type := St -> result A * St.

Definition ret {St A : Type} (a : A) : M St A := fun s => (Ok a, s).

Definition bind {St A B : Type} (m : M St A) (k : A -> M St B) : M St B :=
  fun s =>
    match m s with
    | (Ok a, s') => k a s'
    | (Raise e, s') => (Raise e, s')
    end.

Definition get {St : Type} : M St St := fun s => (Ok s, s).

Definition modify {St : Type} (f : St -> St) : M St unit :=
  fun s => (Ok tt, f s).

Definition lift {St A : Type} (r : result A) : M St A := fun s => (r, s).

Declare Scope method_scope.
Delimit Scope method_scope with method.
Notation "x <- m ;; k" := (bind m (fun x => k))
  (at level 61, m at next level, right associativity) : method_scope.
Notation "m ;; k" := (bind m (fun _ => k))
  (at level 61, right associativity) : method_scope.

(** [for a in l: body(a)]. *)
Fixpoint for_ {St A : Type} (l : list A) (body : A -> M St unit)
  : M St unit :=
  match l with
  | [] => ret tt
  | a :: r => (body a ;; for_ r body)%method
  end.

(** ** class WellResponse *)

Module WellResponse.

Record t : Type := mk {
  _drawdown : option ndval;
  _depletion : option (list R);
  name : string;
  response_type : string;
  T : R;
  T_gpd_ft : R;
  S : R;
  dist : R;
  dd_method : string;
  depl_method : string;
  depletion_years : Z;
  theis_time : pyarg;
  depl_pump_time : Z;
  Q : R;
  stream_apportionment : option R;
  (* attributes that exist only once _calc_depletion has run *)
  baseyears : option (list (list Z));
  imageyears : option (list (list Z))
}.

Definition set__drawdown (v : option ndval) (w : t) : t :=
  mk v (_depletion w) (name w) (response_type w) (T w) (T_gpd_ft w) (S w)
     (dist w) (dd_method w) (depl_method w) (depletion_years w)
     (theis_time w) (depl_pump_time w) (Q w) (stream_apportionment w)
     (baseyears w) (imageyears w).

Definition set__depletion (v : option (list R)) (w : t) : t :=
  mk (_drawdown w) v (name w) (response_type w) (T w) (T_gpd_ft w) (S w)
     (dist w) (dd_method w) (depl_method w) (depletion_years w)
     (theis_time w) (depl_pump_time w) (Q w) (stream_apportionment w)
     (baseyears w) (imageyears w).

Definition set_baseyears (v : option (list (list Z))) (w : t) : t :=
  mk (_drawdown w) (_depletion w) (name w) (response_type w) (T w)
     (T_gpd_ft w) (S w) (dist w) (dd_method w) (depl_method w)
     (depletion_years w) (theis_time w) (depl_pump_time w) (Q w)
     (stream_apportionment w) v (imageyears w).

Definition set_imageyears (v : option (list (list Z))) (w : t) : t :=
  mk (_drawdown w) (_depletion w) (name w) (response_type w) (T w)
     (T_gpd_ft w) (S w) (dist w) (dd_method w) (depl_method w)
     (depletion_years w) (theis_time w) (depl_pump_time w) (Q w)
     (stream_apportionment w) (baseyears w) v.

(** Defaults of the keyword parameters of [__init__]. *)
Definition default_dd_method : string := "Theis".
Definition default_depl_method : string := "Walton".
Definition default_theis_time : pyarg := PyFloat (-9999).
Definition default_depl_pump_time : Z := -99999.
Definition default_depletion_years : Z := 5.

(** [__init__]: stores its arguments; nothing is looked up or computed. *)
Definition init (name response_type : string) (T S dist Q : R)
    (stream_apportionment : option R) (dd_method depl_method : string)
    (theis_time : pyarg) (depl_pump_time depletion_years : Z) : t :=
  {| _drawdown := None;
     _depletion := None;
     name := name;
     response_type := response_type;
     T := T;
     T_gpd_ft := (T * 7.48)%R;
     S := S;
     dist := dist;
     dd_method := dd_method;
     depl_method := depl_method;
     depletion_years := depletion_years;
     theis_time := theis_time;
     depl_pump_time := depl_pump_time;
     Q := Q;
     stream_apportionment := stream_apportionment;
     baseyears := None;
     imageyears := None |}.

Section Methods.
Context {sps : Special}.

Definition _calc_drawdown (w : t) : result ndval :=
  (dd_f <- getitem ALL_DD_METHODS (lower (dd_method w)) ;;
   dd_f (T w) (S w) (theis_time w) (PyFloat (dist w)) (Q w))%res.

(** [self.Q * self.stream_apportionment]: [TypeError] when the
    apportionment was left at [None]. *)
Definition scaled_Q (w : t) : result R :=
  match stream_apportionment w with
  | Some a => Ok (Q w * a)%R
  | None => Raise TypeError
  end.

(** [self.baseyears.append(cby)] and [self.imageyears.append(ciy)]. *)
Definition append_years (cby ciy : list Z) (w : t) : t :=
  set_imageyears (option_map (fun l => l ++ [ciy]) (imageyears w))
    (set_baseyears (option_map (fun l => l ++ [cby]) (baseyears w)) w).

(** The body of the loop over the years [y = 1 .. depletion_years - 1];
    [base0] is [self.baseyears[0]]. *)
Definition year_body (base0 : list Z) (depl_pump_time : Z) (y : Z)
  : M t unit :=
  (cby <- lift (set_tail (zeros_like base0) (365 * y)
                  (get_slice base0 0 (len base0 - 365 * y))) ;;
   let ciy := zeros_like base0 in
   let poffset := (365 * y + depl_pump_time)%Z in
   ciy <- lift (set_tail ciy poffset
                  (get_slice base0 0 (len ciy - poffset))) ;;
   modify (append_years cby ciy))%method.

(** The body of the loop over [zip(self.baseyears, self.imageyears)]. *)
Fixpoint accumulate (depl_f : depl_fn) (w : t)
    (years : list (list Z * list Z)) (depl rech : list R)
  : result (list R * list R) :=
  match years with
  | [] => Ok (depl, rech)
  | (cby, ciy) :: r =>
      (q <- scaled_Q w ;;
       v <- depl_f (T_gpd_ft w) (S w) (dist w) (Arr (map IZR cby)) q ;;
       depl <- iadd depl v ;;
       q <- scaled_Q w ;;
       v <- depl_f (T_gpd_ft w) (S w) (dist w) (Arr (map IZR ciy)) q ;;
       rech <- iadd rech v ;;
       accumulate depl_f w r depl rech)%res
  end.

Definition getattr {A : Type} (f : t -> option A) : M t A :=
  fun w => match f w with
           | Some a => (Ok a, w)
           | None => (Raise AttributeError, w)
           end.

Definition _calc_depletion : M t (list R) :=
  (w <- get ;;
   depl_f <- lift (getitem ALL_DEPL_METHODS (lower (depl_method w))) ;;
   let base0 := arange 1 (365 * depletion_years w + 1) in
   modify (set_baseyears (Some [base0])) ;;
   let image0 := zeros_like base0 in
   modify (set_imageyears (Some [image0])) ;;
   image0 <- lift (set_tail image0 (depl_pump_time w)
                     (arange 1 (len image0 - depl_pump_time w + 1))) ;;
   modify (set_imageyears (Some [image0])) ;;
   for_ (range 1 (depletion_years w))
        (year_body base0 (depl_pump_time w)) ;;
   bys <- getattr baseyears ;;
   iys <- getattr imageyears ;;
   w <- get ;;
   let zeros := repeat 0%R (length base0) in
   dr <- lift (accumulate depl_f w (combine bys iys) zeros zeros) ;;
   ret (map2 Rminus (fst dr) (snd dr)))%method.

(** The property [drawdown]. *)
Definition drawdown : M t ndval :=
  (w <- get ;;
   match _drawdown w with
   | None =>
       v <- lift (_calc_drawdown w) ;;
       modify (set__drawdown (Some v)) ;;
       ret v
   | Some v => ret v
   end)%method.

(** The property [depletion]. *)
Definition depletion : M t (list R) :=
  (w <- get ;;
   match _depletion w with
   | None =>
       v <- _calc_depletion ;;
       modify (set__depletion (Some v)) ;;
       ret v
   | Some v => ret v
   end)%method.

End Methods.

End WellResponse.

(** ** class Well *)

Module Well.

Record t : Type := mk {
  _depletion : option (dict (list R));
  _drawdown : option (dict ndval);
  well_loc : option (R * R);
  stream_locs : option (dict (R * R));
  drawdown_locs : option (dict (R * R));
  stream_dist : option (dict R);
  drawdown_dist : option (dict R);
  T : R;
  S : R;
  depletion_years : Z;
  theis_dd_time : pyarg;
  depl_pump_time : Z;
  Q : R;
  stream_apportionment : option (dict R);
  (* the two dicts of WellResponse objects, keyed 1, 2, ... *)
  stream_responses : list (Z * WellResponse.t);
  drawdown_responses : list (Z * WellResponse.t);
  well_status : string;
  stream_response_names : list Z;
  drawdown_response_names : list string
}.

Definition set__depletion (v : option (dict (list R)))
    (rs : list (Z * WellResponse.t)) (w : t) : t :=
  mk v (_drawdown w) (well_loc w) (stream_locs w) (drawdown_locs w)
     (stream_dist w) (drawdown_dist w) (T w) (S w) (depletion_years w)
     (theis_dd_time w) (depl_pump_time w) (Q w) (stream_apportionment w)
     rs (drawdown_responses w) (well_status w) (stream_response_names w)
     (drawdown_response_names w).

Definition set__drawdown (v : option (dict ndval))
    (rs : list (Z * WellResponse.t)) (w : t) : t :=
  mk (_depletion w) v (well_loc w) (stream_locs w) (drawdown_locs w)
     (stream_dist w) (drawdown_dist w) (T w) (S w) (depletion_years w)
     (theis_dd_time w) (depl_pump_time w) (Q w) (stream_apportionment w)
     (stream_responses w) rs (well_status w) (stream_response_names w)
     (drawdown_response_names w).

(** Defaults of the keyword parameters of [__init__]. *)
Definition default_well_status : string := "pending".
Definition default_T : R := (-9999)%R.
Definition default_S : R := (-99999)%R.
Definition default_Q : R := (-99999)%R.
Definition default_depletion_years : Z := 5.
Definition default_theis_dd_time : pyarg := PyFloat (-9999).
Definition default_depl_pump_time : Z := -9999.

(** [x.keys()] on an attribute that may be [None]. *)
Definition the_dict {V : Type} (x : option (dict V)) : result (dict V) :=
  match x with
  | Some d => Ok d
  | None => Raise AttributeError
  end.

(** Truth value of an optional container. *)
Definition truthy {A : Type} (x : option (list A)) : bool :=
  match x with
  | Some (_ :: _) => true
  | _ => false
  end.

(** [for cs, (cname, cdist) in enumerate(self.stream_dist.items())],
    from the index [cs] on. *)
Fixpoint make_stream_responses (T S Q : R) (depl_pump_time : Z)
    (apportionment : dict R) (cs : Z) (items : dict R)
  : result (list (Z * WellResponse.t)) :=
  match items with
  | [] => Ok []
  | (cname, cdist) :: r =>
      (a <- getitem apportionment cname ;;
       let resp :=
         WellResponse.init cname "stream" T S cdist Q (Some a)
           WellResponse.default_dd_method "walton"
           WellResponse.default_theis_time depl_pump_time
           WellResponse.default_depletion_years in
       rest <- make_stream_responses T S Q depl_pump_time apportionment
                 (cs + 1) r ;;
       Ok ((cs + 1, resp)%Z :: rest))%res
  end.

(** [for cw, (cname, cdist) in enumerate(self.drawdown_dist.items())]. *)
Fixpoint make_drawdown_responses (T S Q : R) (theis_dd_time : pyarg)
    (depletion_years : Z) (cw : Z) (items : dict R)
  : list (Z * WellResponse.t) :=
  match items with
  | [] => []
  | (cname, cdist) :: r =>
      (cw + 1,
       WellResponse.init cname "well" T S cdist Q None "theis"
         WellResponse.default_depl_method theis_dd_time
         WellResponse.default_depl_pump_time depletion_years)%Z
      :: make_drawdown_responses T S Q theis_dd_time depletion_years
           (cw + 1) r
  end.

Definition init (well_loc : option (R * R)) (well_status : string)
    (T S Q : R) (depletion_years : Z) (theis_dd_time : pyarg)
    (depl_pump_time : Z) (stream_dist drawdown_dist : option (dict R))
    (stream_locs drawdown_locs : option (dict (R * R)))
    (stream_apportionment : option (dict R)) : result t :=
  (sd <- the_dict stream_dist ;;
   sa <- the_dict stream_apportionment ;;
   (* assert len(set(stream_dist.keys()) - set(apportionment.keys())) == 0 *)
   _ <- (if (length (set_diff (keys sd) (keys sa)) =? 0)%nat
         then Ok tt else Raise AssertionError) ;;
   dd <- the_dict drawdown_dist ;;
   (* raise('...'): raising a str is a TypeError *)
   _ <- (if is_none stream_dist && truthy stream_locs
         then Raise TypeError else Ok tt) ;;
   _ <- (if is_none drawdown_dist && negb (is_none well_loc)
         then Raise TypeError else Ok tt) ;;
   srs <- make_stream_responses T S Q depl_pump_time sa 0 sd ;;
   let drs :=
     make_drawdown_responses T S Q theis_dd_time depletion_years 0 dd in
   Ok {| _depletion := None;
         _drawdown := None;
         well_loc := well_loc;
         stream_locs := stream_locs;
         drawdown_locs := drawdown_locs;
         stream_dist := stream_dist;
         drawdown_dist := drawdown_dist;
         T := T;
         S := S;
         depletion_years := depletion_years;
         theis_dd_time := theis_dd_time;
         depl_pump_time := depl_pump_time;
         Q := Q;
         stream_apportionment := stream_apportionment;
         stream_responses := srs;
         drawdown_responses := drs;
         well_status := well_status;
         stream_response_names := [];
         drawdown_response_names := keys dd |})%res.

(** [for c, cwob in responses.items(): d[cwob.name] = cwob.<prop>]: the
    responses are objects shared with the dict, so each keeps the cache its
    property filled; an exception stops the loop with [d] as far as it was
    filled. *)
Fixpoint collect {V : Type} (prop : M WellResponse.t V)
    (rs : list (Z * WellResponse.t)) (d : dict V)
  : option exn * list (Z * WellResponse.t) * dict V :=
  match rs with
  | [] => (None, [], d)
  | (c, cwob) :: rest =>
      match prop cwob with
      | (Ok v, cwob') =>
          let '(e, rest', d') :=
            collect prop rest (dict_set (WellResponse.name cwob') v d) in
          (e, (c, cwob') :: rest', d')
      | (Raise e, cwob') => (Some e, (c, cwob') :: rest, d)
      end
  end.

Definition finish {St V : Type} (e : option exn) (d : V) (w : St)
  : result V * St :=
  match e with
  | None => (Ok d, w)
  | Some e => (Raise e, w)
  end.

Section Methods.
Context {sps : Special}.

(** The property [drawdown]. *)
Definition drawdown : M t (dict ndval) :=
  fun w =>
    match _drawdown w with
    | None =>
        let '(e, rs, d) :=
          collect WellResponse.drawdown (drawdown_responses w) [] in
        finish e d (set__drawdown (Some d) rs w)
    | Some d => (Ok d, w)
    end.

(** The property [depletion]. *)
Definition depletion : M t (dict (list R)) :=
  fun w =>
    match _depletion w with
    | None =>
        let '(e, rs, d) :=
          collect WellResponse.depletion (stream_responses w) [] in
        finish e d (set__depletion (Some d) rs w)
    | Some d => (Ok d, w)
    end.

End Methods.

End Well.

(** ** The depletion code with the special values of float arithmetic

    The definitions above read floats as real numbers.  In this module a
    float is a real number, the negative zero, an infinity or NaN, and the
    operations return what IEEE 754 arithmetic returns on these; rounding
    and overflow are not modelled, a finite result being the exact real.
    [_glover] and [_walton] are taken with the shapes of argument that
    [_calc_depletion] passes, a float and an integer array, and every call
    through the registry is logged with what the parameters [time] and
    [dist] of the callee received. *)

Module IEEE.

Inductive xval : Type :=
| Fin (x : R)   (* a finite float; [Fin 0] is +0.0 *)
| NegZero       (* -0.0 *)
| PInf
| NInf
| NaN.

Definition is_nan (a : xval) : bool :=
  match a with
  | NaN => true
  | _ => false
  end.

Definition is_inf (a : xval) : bool :=
  match a with
  | PInf | NInf => true
  | _ => false
  end.

Definition is_zero (a : xval) : bool :=
  match a with
  | Fin x => if Req_EM_T x 0 then true else false
  | NegZero => true
  | _ => false
  end.

(** The sign bit. *)
Definition is_neg (a : xval) : bool :=
  match a with
  | Fin x => if Rlt_dec x 0 then true else false
  | NegZero | NInf => true
  | _ => false
  end.

Definition finite (a : xval) : bool :=
  match a with
  | Fin _ | NegZero => true
  | _ => false
  end.

(** The real number that a finite float stands for. *)
Definition to_R (a : xval) : R :=
  match a with
  | Fin x => x
  | _ => 0%R
  end.

Definition zero (neg : bool) : xval := if neg then NegZero else Fin 0.
Definition inf (neg : bool) : xval := if neg then NInf else PInf.

Definition xmul (a b : xval) : xval :=
  if is_nan a || is_nan b then NaN
  else if (is_zero a && is_inf b) || (is_inf a && is_zero b) then NaN
  else if is_inf a || is_inf b then inf (xorb (is_neg a) (is_neg b))
  else if is_zero a || is_zero b then zero (xorb (is_neg a) (is_neg b))
  else Fin (to_R a * to_R b).

Definition xdiv (a b : xval) : xval :=
  if is_nan a || is_nan b then NaN
  else if (is_zero a && is_zero b) || (is_inf a && is_inf b) then NaN
  else if is_inf a || is_zero b then inf (xorb (is_neg a) (is_neg b))
  else if is_zero a || is_inf b then zero (xorb (is_neg a) (is_neg b))
  else Fin (to_R a / to_R b).

Definition xadd (a b : xval) : xval :=
  if is_nan a || is_nan b then NaN
  else if is_inf a && is_inf b
       then (if Bool.eqb (is_neg a) (is_neg b) then a else NaN)
  else if is_inf a then a
  else if is_inf b then b
  else if Req_EM_T (to_R a + to_R b) 0 then zero (is_neg a && is_neg b)
  else Fin (to_R a + to_R b).

Definition xneg (a : xval) : xval :=
  match a with
  | Fin x => if Req_EM_T x 0 then NegZero else Fin (- x)
  | NegZero => Fin 0
  | PInf => NInf
  | NInf => PInf
  | NaN => NaN
  end.

Definition xsub (a b : xval) : xval := xadd a (xneg b).

Definition xsqrt (a : xval) : xval :=
  match a with
  | Fin x => if Rlt_dec x 0 then NaN else Fin (sqrt x)
  | NegZero => NegZero
  | PInf => PInf
  | NInf => NaN
  | NaN => NaN
  end.

(** [a ** n] for an integer [n >= 1]. *)
Fixpoint xpow (a : xval) (n : nat) : xval :=
  match n with
  | O => Fin 1
  | Datatypes.S O => a
  | Datatypes.S m => xmul a (xpow a m)
  end.

(** A float scalar or a one-dimensional float array. *)
Inductive xnd : Type :=
| XScalar (v : xval)
| XArr (l : list xval).

(** [acc += v] on a float array [acc]. *)
Definition iadd (acc : list xval) (v : xnd) : result (list xval) :=
  match v with
  | XScalar x => Ok (map (fun a => xadd a x) acc)
  | XArr l =>
      if (length l =? length acc)%nat then Ok (map2 xadd acc l)
      else match l with
           | [x] => Ok (map (fun a => xadd a x) acc)
           | _ => Raise ValueError
           end
  end.

(** What a parameter of a depletion function received. *)
Inductive arg : Type :=
| FloatArg (x : R)
| IntArray (l : list Z).

(** A call of a depletion function: the function and what its parameters
    received. *)
Record call : Type := called {
  callee : string;
  p_T : R;
  p_S : R;
  p_time : arg;
  p_dist : arg;
  p_Q : R
}.


Section Methods.
Context {sps : Special}.

(** [scipy.special.erfc] at the special values. *)
Definition xerfc (a : xval) : xval :=
  match a with
  | Fin x => Fin (erfc x)
  | NegZero => Fin (erfc 0)
  | PInf => Fin 0
  | NInf => Fin 2
  | NaN => NaN
  end.

(** [_glover] on a float [time] and an integer array [dist]. *)
Definition _glover (T S time : R) (dist : list Z) (Q : R) : list xval :=
  map (fun d =>
         let z :=
           xsqrt (xdiv (xmul (Fin (IZR (d ^ 2))) (Fin S))
                       (xmul (xmul (Fin 4) (Fin T)) (Fin time))) in
         xmul (Fin Q) (xerfc z))
      dist.

(** [I], [J] and the value returned by [_walton], for one entry of [G]. *)
Definition walton_value (Q : R) (G : xval) : xval :=
  let I :=
    xadd (xadd (xadd (Fin 1) (xmul (Fin 0.0705230784) G))
               (xmul (Fin 0.0422820123) (xpow G 2)))
         (xmul (Fin 9.2705272e-03) (xpow G 3)) in
  let J :=
    xpow (xadd (xadd (xadd I (xmul (Fin 1.52014e-04) (xpow G 4)))
                     (xmul (Fin 2.76567e-04) (xpow G 5)))
               (xmul (Fin 4.30638e-05) (xpow G 6)))
         16 in
  xdiv (xdiv (xmul (Fin Q) (xdiv (Fin 1) J)) (Fin 3600)) (Fin 24).

(** [_walton] on a float [dist] and an integer array [time]. *)
Definition _walton (T S dist : R) (time : list Z) (Q : R) : xnd :=
  if Rlt_dec 0 dist
  then XArr (map (fun t =>
                    walton_value Q
                      (xdiv (Fin dist)
                         (xsqrt (xdiv (xmul (xmul (Fin 0.535) (Fin (IZR t)))
                                            (Fin T))
                                      (Fin S)))))
               time)
  else XScalar (walton_value Q (Fin 0)).

(** A method as it is called, positionally with [(T, S, dist, series, Q)]:
    its value, and the record of the call. *)
Definition depl_fn : Type := R -> R -> R -> list Z -> R -> xnd * call.

Definition ALL_DEPL_METHODS : dict depl_fn :=
  [("glover"%string,
    fun T S a3 a4 Q =>
      (XArr (_glover T S a3 a4 Q),
       called "_glover" T S (FloatArg a3) (IntArray a4) Q));
   ("walton"%string,
    fun T S a3 a4 Q =>
      (_walton T S a3 a4 Q,
       called "_walton" T S (IntArray a4) (FloatArg a3) Q))].

(** The loop over [zip(self.baseyears, self.imageyears)], with the log of
    the calls made so far. *)
Fixpoint accumulate (depl_f : depl_fn) (w : WellResponse.t)
    (years : list (list Z * list Z)) (depl rech : list xval)
    (log : list call) : result (list xval * list xval) * list call :=
  match years with
  | [] => (Ok (depl, rech), log)
  | (cby, ciy) :: r =>
      match WellResponse.scaled_Q w with
      | Raise e => (Raise e, log)
      | Ok q =>
          let (v1, c1) :=
            depl_f (WellResponse.T_gpd_ft w) (WellResponse.S w)
              (WellResponse.dist w) cby q in
          match iadd depl v1 with
          | Raise e => (Raise e, log ++ [c1])
          | Ok depl =>
              let (v2, c2) :=
                depl_f (WellResponse.T_gpd_ft w) (WellResponse.S w)
                  (WellResponse.dist w) ciy q in
              match iadd rech v2 with
              | Raise e => (Raise e, log ++ [c1; c2])
              | Ok rech => accumulate depl_f w r depl rech (log ++ [c1; c2])
              end
          end
      end
  end.

(** The statements of [_calc_depletion] that build the arrays of all
    years. *)
Definition build_series : M WellResponse.t unit :=
  (w <- get ;;
   let base0 := arange 1 (365 * WellResponse.depletion_years w + 1) in
   modify (WellResponse.set_baseyears (Some [base0])) ;;
   let image0 := zeros_like base0 in
   modify (WellResponse.set_imageyears (Some [image0])) ;;
   image0 <- lift (set_tail image0 (WellResponse.depl_pump_time w)
                     (arange 1 (len image0 - WellResponse.depl_pump_time w
                                + 1))) ;;
   modify (WellResponse.set_imageyears (Some [image0])) ;;
   for_ (range 1 (WellResponse.depletion_years w))
        (WellResponse.year_body base0 (WellResponse.depl_pump_time w)))%method.

(** [_calc_depletion]: the result, the log of the calls, and the object. *)
Definition _calc_depletion (w : WellResponse.t)
  : result (list xval) * list call * WellResponse.t :=
  match getitem ALL_DEPL_METHODS (lower (WellResponse.depl_method w)) with
  | Raise e => (Raise e, [], w)
  | Ok depl_f =>
      match build_series w with
      | (Raise e, w') => (Raise e, [], w')
      | (Ok _, w') =>
          match WellResponse.baseyears w', WellResponse.imageyears w' with
          | Some bys, Some iys =>
              let zeros := repeat (Fin 0) (length (nth 0 bys [])) in
              let (r, log) :=
                accumulate depl_f w' (combine bys iys) zeros zeros [] in
              (match r with
               | Ok dr => Ok (map2 xsub (fst dr) (snd dr))
               | Raise e => Raise e
               end, log, w')
          | _, _ => (Raise AttributeError, [], w')
          end
      end
  end.

End Methods.

End IEEE.

(** ** Definitions used to state the properties *)

(** The sum of the values [f s] over the series [s] of [ss], added one
    after the other to the float array [acc]. *)
Fixpoint xsum_evals (f : list Z -> IEEE.xnd) (ss : list (list Z))
    (acc : list IEEE.xval) : result (list IEEE.xval) :=
  match ss with
  | [] => Ok acc
  | s :: r => (acc <- IEEE.iadd acc (f s) ;; xsum_evals f r acc)%res
  end.

(** What [v - v] is on floats: zero for a finite [v], NaN for an infinity
    and for NaN. *)
Definition cancelled (v : IEEE.xval) : IEEE.xval :=
  if IEEE.finite v then IEEE.Fin 0 else IEEE.NaN.

(** A float scalar, or a float array of length [n]. *)
Definition xshape_ok (n : nat) (v : IEEE.xnd) : Prop :=
  match v with
  | IEEE.XScalar _ => True
  | IEEE.XArr l => length l = n
  end.

(** The entries of a float scalar or array. *)
Definition entries (v : IEEE.xnd) : list IEEE.xval :=
  match v with
  | IEEE.XScalar x => [x]
  | IEEE.XArr l => l
  end.

(** The day indices [1..N] shifted forward by [k] days: [k] zeros in front,
    cut to [N] entries. *)
Definition shifted (N k : Z) : list Z :=
  firstn (Z.to_nat N) (repeat 0%Z (Z.to_nat k) ++ arange 1 (N + 1)).

(** The sum of the evaluations [call s] over the series [s] of [ss], added
    one after the other to the array [acc]. *)
Fixpoint sum_evals (call : list Z -> result ndval) (ss : list (list Z))
    (acc : list R) : result (list R) :=
  match ss with
  | [] => Ok acc
  | s :: r =>
      (v <- call s ;; acc <- iadd acc v ;; sum_evals call r acc)%res
  end.


(** A scalar, or an array of length [n]. *)
Definition shape_ok (n : nat) (v : ndval) : Prop :=
  match v with
  | Scalar _ => True
  | Arr l => length l = n
  end.

(** The state of a response whose year series are [bys] and [iys]. *)
Definition with_years (bys iys : list (list Z)) (w : WellResponse.t)
  : WellResponse.t :=
  WellResponse.set_imageyears (Some iys)
    (WellResponse.set_baseyears (Some bys) w).

(** An instance of [Special] to run examples with; no example depends on
    the two functions it holds. *)
Definition sps_example : Special :=
  {| exp1 := fun x => exp (- x); erfc := fun x => exp (- x) |}.

(** The formulas of the specification for the Walton and Theis functions. *)
Section Formulas.
Context {sps : Special}.
Local Open Scope R_scope.

Definition walton_G_spec (T S dist time : R) : R :=
  if Rlt_dec 0 dist then dist / sqrt (0.535 * time * T / S) else 0.

Definition walton_I_spec (G : R) : R :=
  1 + 0.0705230784 * G + 0.0422820123 * G ^ 2 + 0.0092705272 * G ^ 3.

Definition walton_J_spec (G : R) : R :=
  (walton_I_spec G + 1.52014e-4 * G ^ 4 + 2.76567e-4 * G ^ 5
   + 4.30638e-5 * G ^ 6) ^ 16.

Definition walton_spec (T S dist time Q : R) : R :=
  Q * (1 / walton_J_spec (walton_G_spec T S dist time)) / 86400.

Definition theis_spec (T S time dist Q : R) : R :=
  Q / (4 * PI * T) * exp1 (dist ^ 2 * S / (4 * T * time)).

End Formulas.

(** Every entry of a time argument is positive. *)
Definition all_positive (v : ndval) : Prop :=
  match v with
  | Scalar t => (0 < t)%R
  | Arr l => Forall (fun t => (0 < t)%R) l
  end.

(** Two states of a response with the same two cache slots. *)
Definition same_slots (w w' : WellResponse.t) : Prop :=
  WellResponse._drawdown w' = WellResponse._drawdown w /\
  WellResponse._depletion w' = WellResponse._depletion w.

(** What the stream loop of [__init__] builds: every response has the
    pumping offset of the well, the method ['walton'], both slots unset, and
    the default horizon of [WellResponse], 5 years, whatever the horizon of
    the well is. *)
Definition stream_response_ok (depl_pump_time : Z) (r : WellResponse.t)
  : Prop :=
  WellResponse.depl_pump_time r = depl_pump_time /\
  WellResponse.depletion_years r = 5%Z /\
  WellResponse.depl_method r = "walton"%string /\
  WellResponse._depletion r = None /\
  WellResponse._drawdown r = None /\
  exists a, WellResponse.stream_apportionment r = Some a.

(** Sequences of accesses to the two cached properties. *)
Inductive access : Type :=
| GetDrawdown
| GetDepletion.



Section Accesses.
Context {sps : Special}.





(** The state after a sequence of accesses. *)
Definition run_accesses {St : Type} (step : access -> St -> bool * St)
    (l : list access) (w : St) : St :=
  fold_left (fun w a => snd (step a w)) l w.


End Accesses.

(** ** Integer arrays *)

Section IntArrayFacts.
Local Open Scope Z_scope.

Lemma arange_length (a b : Z) : length (arange a b) = Z.to_nat (b - a).
Proof. unfold arange. now rewrite length_map, length_seq. Qed.

Lemma firstn_seq_le (k s n : nat) :
  (k <= n)%nat -> firstn k (seq s n) = seq s k.
Proof.
  revert s n. induction k as [|k IH]; intros s [|n] H; simpl; try lia; auto.
  f_equal. apply IH. lia.
Qed.

Lemma firstn_arange (a k n : Z) :
  0 <= k <= n -> firstn (Z.to_nat k) (arange a (a + n)) = arange a (a + k).
Proof.
  intros H. unfold arange. rewrite firstn_map, firstn_seq_le by lia.
  do 2 f_equal. lia.
Qed.

Lemma firstn_repeat {A : Type} (x : A) (k n : nat) :
  (k <= n)%nat -> firstn k (repeat x n) = repeat x k.
Proof.
  revert n. induction k as [|k IH]; intros [|n] H; simpl; try lia; auto.
  f_equal. apply IH. lia.
Qed.

Lemma shifted_eq (N k : Z) :
  0 <= k <= N ->
  shifted N k = repeat 0 (Z.to_nat k) ++ arange 1 (N - k + 1).
Proof.
  intros H. unfold shifted.
  rewrite firstn_app, repeat_length.
  rewrite firstn_all2 by (rewrite repeat_length; lia).
  f_equal.
  replace (Z.to_nat N - Z.to_nat k)%nat with (Z.to_nat (N - k)) by lia.
  replace (N + 1) with (1 + N) by lia.
  replace (N - k + 1) with (1 + (N - k)) by lia.
  apply firstn_arange. lia.
Qed.

Lemma shifted_length (N k : Z) :
  0 <= k <= N -> length (shifted N k) = Z.to_nat N.
Proof.
  intros H. rewrite shifted_eq by assumption.
  rewrite length_app, repeat_length, arange_length. lia.
Qed.

Lemma shifted_0 (N : Z) : 0 <= N -> shifted N 0 = arange 1 (N + 1).
Proof.
  intros H. rewrite shifted_eq by lia. simpl.
  now replace (N - 0 + 1) with (N + 1) by lia.
Qed.

Lemma slice_bound_in (n i : Z) : 0 <= i <= n -> slice_bound n i = i.
Proof. intros H. unfold slice_bound. destruct (Z.ltb_spec i 0); lia. Qed.

Lemma get_slice_prefix (N k : Z) :
  0 <= k <= N ->
  get_slice (arange 1 (N + 1)) 0 k = arange 1 (k + 1).
Proof.
  intros H. unfold get_slice, len. rewrite arange_length.
  rewrite !slice_bound_in by lia.
  replace (k - 0) with k by lia. simpl skipn.
  replace (N + 1) with (1 + N) by lia.
  replace (k + 1) with (1 + k) by lia.
  apply firstn_arange. lia.
Qed.

(** Writing the [N - k] first day indices behind the first [k] slots of a
    zero array of length [N]. *)
Lemma set_tail_zeros (N k : Z) (src : list Z) :
  0 <= k <= N -> length src = Z.to_nat (N - k) ->
  set_tail (zeros_like (arange 1 (N + 1))) k src
  = Ok (repeat 0 (Z.to_nat k) ++ src).
Proof.
  intros H Hs. unfold set_tail, zeros_like, len.
  rewrite repeat_length, arange_length.
  replace (N + 1 - 1) with N by lia.
  rewrite slice_bound_in by lia.
  replace (length src =? Z.to_nat N - Z.to_nat k)%nat with true
    by (symmetry; apply Nat.eqb_eq; lia).
  rewrite firstn_repeat by lia. reflexivity.
Qed.

(** The arrays that one turn of the loop over the years builds. *)
Lemma year_arrays (N k : Z) :
  0 <= k <= N ->
  let base0 := arange 1 (N + 1) in
  set_tail (zeros_like base0) k
    (get_slice base0 0 (len (zeros_like base0) - k))
  = Ok (shifted N k).
Proof.
  intros H base0. subst base0.
  assert (L : len (zeros_like (arange 1 (N + 1))) = N).
  { unfold len, zeros_like. rewrite repeat_length, arange_length. lia. }
  rewrite L, get_slice_prefix by lia.
  rewrite set_tail_zeros by (try rewrite arange_length; lia).
  now rewrite shifted_eq.
Qed.

Lemma image0_array (N k : Z) :
  0 <= k <= N ->
  let image0 := zeros_like (arange 1 (N + 1)) in
  set_tail image0 k (arange 1 (len image0 - k + 1)) = Ok (shifted N k).
Proof.
  intros H image0. subst image0.
  assert (L : len (zeros_like (arange 1 (N + 1))) = N).
  { unfold len, zeros_like. rewrite repeat_length, arange_length. lia. }
  rewrite L, set_tail_zeros by (try rewrite arange_length; lia).
  now rewrite shifted_eq.
Qed.

End IntArrayFacts.

(** ** The superposition code of [WellResponse._calc_depletion] *)

Section Superposition.
Context {sps : Special}.
Local Open Scope Z_scope.

Lemma len_zeros_like (l : list Z) : len (zeros_like l) = len l.
Proof. unfold len, zeros_like. now rewrite repeat_length. Qed.

Lemma len_arange_1 (N : Z) : 0 <= N -> len (arange 1 (N + 1)) = N.
Proof. intros H. unfold len. rewrite arange_length. lia. Qed.

Lemma in_arange (a b y : Z) : In y (arange a b) <-> a <= y < b.
Proof.
  unfold arange. rewrite in_map_iff. split.
  - intros [i [E I]]. apply in_seq in I. lia.
  - intros H. exists (Z.to_nat (y - a)). split; [lia|].
    apply in_seq. lia.
Qed.

Lemma range_cons (a b : Z) : a < b -> range a b = a :: range (a + 1) b.
Proof.
  intros H. unfold range, arange.
  replace (Z.to_nat (b - a)) with (Datatypes.S (Z.to_nat (b - (a + 1))))
    by lia.
  simpl. f_equal; [lia|].
  rewrite <- seq_shift, map_map. apply map_ext. intros i. lia.
Qed.

Lemma range_length (a b : Z) : length (range a b) = Z.to_nat (b - a).
Proof. apply arange_length. Qed.

Lemma years_start (b i z : list Z) (w : WellResponse.t) :
  WellResponse.set_imageyears (Some [i])
    (WellResponse.set_imageyears (Some [z])
       (WellResponse.set_baseyears (Some [b]) w))
  = with_years [b] [i] w.
Proof. reflexivity. Qed.

Lemma append_with_years (cby ciy : list Z) (bys iys : list (list Z))
    (w : WellResponse.t) :
  WellResponse.append_years cby ciy (with_years bys iys w)
  = with_years (bys ++ [cby]) (iys ++ [ciy]) w.
Proof. reflexivity. Qed.

(** The loop over the years [ys], run with offsets that stay inside the
    horizon, appends the shifted series of each year. *)
Lemma years_loop (N dpt : Z) (ys : list Z) :
  0 <= N ->
  (forall y, In y ys -> 0 <= 365 * y <= N /\ 0 <= 365 * y + dpt <= N) ->
  forall (bys iys : list (list Z)) (w : WellResponse.t),
    for_ ys (WellResponse.year_body (arange 1 (N + 1)) dpt)
      (with_years bys iys w)
    = (Ok tt,
       with_years (bys ++ map (fun y => shifted N (365 * y)) ys)
                  (iys ++ map (fun y => shifted N (365 * y + dpt)) ys) w).
Proof.
  intros HN. induction ys as [|y ys IH]; intros Hys bys iys w.
  - simpl. now rewrite !app_nil_r.
  - destruct (Hys y (or_introl eq_refl)) as [Hb Hi].
    simpl for_. unfold bind at 1. unfold WellResponse.year_body.
    unfold bind, lift, modify.
    rewrite <- (len_zeros_like (arange 1 (N + 1))) at 1.
    rewrite (year_arrays (k := 365 * y)) by assumption.
    rewrite (year_arrays (k := 365 * y + dpt)) by assumption.
    rewrite append_with_years.
    rewrite IH by (intros y' Hy'; apply Hys; now right).
    simpl map. now rewrite <- !app_assoc.
Qed.

(** Each method of the registry, given an array of times, returns a scalar
    or an array of the same length, and raises nothing. *)
Lemma depl_method_shape (k : string) (depl_f : depl_fn) :
  getitem ALL_DEPL_METHODS k = Ok depl_f ->
  forall (T S d : R) (l : list R) (q : R),
    exists v, depl_f T S d (Arr l) q = Ok v /\ shape_ok (length l) v.
Proof.
  unfold getitem, ALL_DEPL_METHODS. cbn [dict_get].
  destruct (String.eqb "glover" k).
  { intros E. injection E as <-. intros T S d l q.
    eexists. split; [reflexivity|]. simpl. now rewrite !length_map. }
  destruct (String.eqb "walton" k); [|discriminate].
  intros E. injection E as <-. intros T S d l q.
  eexists. split; [reflexivity|]. unfold _walton.
  destruct (Rlt_dec 0 d); simpl; auto. now rewrite !length_map.
Qed.

Lemma map2_length {A B C : Type} (f : A -> B -> C) (l1 : list A)
    (l2 : list B) :
  length l1 = length l2 -> length (map2 f l1 l2) = length l1.
Proof.
  revert l2. induction l1 as [|a l1 IH]; intros [|b l2] H; simpl in *;
    try discriminate; auto.
Qed.

Lemma iadd_ok (acc : list R) (v : ndval) :
  shape_ok (length acc) v ->
  exists acc', iadd acc v = Ok acc' /\ length acc' = length acc.
Proof.
  destruct v as [x|l]; simpl; intros H.
  - eexists. split; [reflexivity|]. now rewrite length_map.
  - rewrite H, Nat.eqb_refl. eexists. split; [reflexivity|].
    now apply map2_length.
Qed.

(** Over series of the length of [acc], a method that keeps the shape of its
    time argument is summed without an exception. *)
Lemma sum_evals_ok (call : list Z -> result ndval) (n : nat) :
  (forall s, length s = n -> exists v, call s = Ok v /\ shape_ok n v) ->
  forall (ss : list (list Z)) (acc : list R),
    (forall s, In s ss -> length s = n) -> length acc = n ->
    exists r, sum_evals call ss acc = Ok r /\ length r = n.
Proof.
  intros Hcall. induction ss as [|s ss IH]; intros acc Hss Hacc.
  - exists acc. now split.
  - destruct (Hcall s (Hss s (or_introl eq_refl))) as [v [Ev Sv]].
    rewrite <- Hacc in Sv.
    destruct (iadd_ok acc v Sv) as [acc' [Ea La]].
    simpl. rewrite Ev. simpl. rewrite Ea. simpl.
    apply IH; [intros s' Hs'; apply Hss; now right | congruence].
Qed.

(** The loop over [zip(baseyears, imageyears)] returns the two sums. *)
Lemma accumulate_sums (depl_f : depl_fn) (w : WellResponse.t) (a : R) :
  WellResponse.stream_apportionment w = Some a ->
  let call := fun s =>
    depl_f (WellResponse.T_gpd_ft w) (WellResponse.S w)
      (WellResponse.dist w) (Arr (map IZR s))
      (WellResponse.Q w * a)%R in
  forall (bys iys : list (list Z)) (depl rech depl' rech' : list R),
    length bys = length iys ->
    sum_evals call bys depl = Ok depl' ->
    sum_evals call iys rech = Ok rech' ->
    WellResponse.accumulate depl_f w (combine bys iys) depl rech
    = Ok (depl', rech').
Proof.
  intros Ha call.
  induction bys as [|b bys IH]; intros [|i iys] depl rech depl' rech' L Hd Hr;
    simpl in L; try discriminate.
  - simpl in *. congruence.
  - simpl in Hd, Hr. simpl combine. simpl WellResponse.accumulate.
    unfold WellResponse.scaled_Q. rewrite Ha. simpl rbind.
    fold (call b). fold (call i).
    destruct (call b) as [vb|]; simpl in Hd; [|discriminate].
    destruct (iadd depl vb) as [d1|] eqn:Ed; simpl in Hd; [|discriminate].
    destruct (call i) as [vi|]; simpl in Hr; [|discriminate].
    destruct (iadd rech vi) as [r1|] eqn:Er; simpl in Hr; [|discriminate].
    simpl rbind. rewrite Ed. simpl rbind. rewrite Er. simpl rbind.
    apply IH; auto.
Qed.

End Superposition.

Section Run.
Context {sps : Special}.
Local Open Scope Z_scope.

(** With a method of the registry and a pumping offset of at most one year,
    [_calc_depletion] builds the shifted series of every year and runs the
    loop of [accumulate] over them. *)
Lemma calc_depletion_series (w : WellResponse.t) (depl_f : depl_fn) :
  getitem ALL_DEPL_METHODS (lower (WellResponse.depl_method w)) = Ok depl_f ->
  1 <= WellResponse.depletion_years w ->
  0 <= WellResponse.depl_pump_time w <= 365 ->
  let N := 365 * WellResponse.depletion_years w in
  let ys := range 0 (WellResponse.depletion_years w) in
  let bases := map (fun y => shifted N (365 * y)) ys in
  let images :=
    map (fun y => shifted N (365 * y + WellResponse.depl_pump_time w)) ys in
  let zeros := repeat 0%R (Z.to_nat N) in
  let w' := with_years bases images w in
  WellResponse._calc_depletion w
  = (match WellResponse.accumulate depl_f w' (combine bases images)
             zeros zeros with
     | Ok dr => Ok (map2 Rminus (fst dr) (snd dr))
     | Raise e => Raise e
     end, w').
Proof.
  intros Hm Hy Hp N ys bases images zeros w'.
  assert (HN : 0 <= N) by (unfold N; lia).
  unfold WellResponse._calc_depletion.
  unfold bind at 1. unfold get at 1.
  unfold bind at 1. unfold lift at 1. rewrite Hm.
  unfold bind at 1. unfold modify at 1.
  unfold bind at 1. unfold modify at 1.
  unfold bind at 1. unfold lift at 1.
  fold N.
  rewrite (image0_array (N := N) (k := WellResponse.depl_pump_time w))
    by (unfold N; lia).
  unfold bind at 1. unfold modify at 1. rewrite years_start.
  unfold bind at 1.
  rewrite (@years_loop N (WellResponse.depl_pump_time w)
             (range 1 (WellResponse.depletion_years w)) HN).
  2:{ intros y Hin. apply in_arange in Hin. unfold N. lia. }
  assert (Eb : [arange 1 (N + 1)]
               ++ map (fun y => shifted N (365 * y))
                    (range 1 (WellResponse.depletion_years w)) = bases).
  { unfold bases, ys. rewrite (range_cons (a := 0)) by lia. simpl map.
    rewrite ?Z.mul_0_r. rewrite shifted_0 by assumption. reflexivity. }
  assert (Ei : [shifted N (WellResponse.depl_pump_time w)]
               ++ map (fun y => shifted N
                                  (365 * y + WellResponse.depl_pump_time w))
                    (range 1 (WellResponse.depletion_years w)) = images).
  { unfold images, ys. rewrite (range_cons (a := 0)) by lia. simpl map.
    rewrite ?Z.mul_0_r, ?Z.add_0_l. reflexivity. }
  rewrite Eb, Ei. fold w'.
  unfold bind, WellResponse.getattr, get, lift, ret.
  replace (WellResponse.baseyears w') with (Some bases) by reflexivity.
  replace (WellResponse.imageyears w') with (Some images) by reflexivity.
  rewrite arange_length. replace (N + 1 - 1) with N by lia. fold zeros.
  now destruct (WellResponse.accumulate depl_f w' (combine bases images)
                  zeros zeros).
Qed.

(** With, in addition, a numeric apportionment, the loop raises nothing:
    what [_calc_depletion] returns, and the state it leaves. *)
Lemma calc_depletion_run (w : WellResponse.t) (depl_f : depl_fn) (a : R) :
  getitem ALL_DEPL_METHODS (lower (WellResponse.depl_method w)) = Ok depl_f ->
  WellResponse.stream_apportionment w = Some a ->
  1 <= WellResponse.depletion_years w ->
  0 <= WellResponse.depl_pump_time w <= 365 ->
  let N := 365 * WellResponse.depletion_years w in
  let ys := range 0 (WellResponse.depletion_years w) in
  let bases := map (fun y => shifted N (365 * y)) ys in
  let images :=
    map (fun y => shifted N (365 * y + WellResponse.depl_pump_time w)) ys in
  let call := fun s =>
    depl_f (WellResponse.T_gpd_ft w) (WellResponse.S w)
      (WellResponse.dist w) (Arr (map IZR s))
      (WellResponse.Q w * a)%R in
  let zeros := repeat 0%R (Z.to_nat N) in
  exists depl rech,
    sum_evals call bases zeros = Ok depl /\
    sum_evals call images zeros = Ok rech /\
    length depl = Z.to_nat N /\ length rech = Z.to_nat N /\
    WellResponse._calc_depletion w
    = (Ok (map2 Rminus depl rech), with_years bases images w).
Proof.
  intros Hm Ha Hy Hp N ys bases images call zeros.
  assert (HN : 0 <= N) by (unfold N; lia).
  assert (Hys : forall y, In y ys -> 0 <= y < WellResponse.depletion_years w).
  { intros y Hin. now apply in_arange in Hin. }
  assert (Hcall : forall s, length s = Z.to_nat N ->
            exists v, call s = Ok v /\ shape_ok (Z.to_nat N) v).
  { intros s Ls. unfold call.
    destruct (depl_method_shape _ Hm (WellResponse.T_gpd_ft w)
                (WellResponse.S w) (WellResponse.dist w) (map IZR s)
                (WellResponse.Q w * a)%R) as [v [Ev Sv]].
    exists v. split; [exact Ev|]. now rewrite length_map, Ls in Sv. }
  destruct (sum_evals_ok call Hcall bases zeros) as [depl [Ed Ld]].
  { intros s Hs. apply in_map_iff in Hs. destruct Hs as [y [<- Hin]].
    apply Hys in Hin. apply shifted_length. fold N. lia. }
  { unfold zeros. apply repeat_length. }
  destruct (sum_evals_ok call Hcall images zeros) as [rech [Er Lr]].
  { intros s Hs. apply in_map_iff in Hs. destruct Hs as [y [<- Hin]].
    apply Hys in Hin. apply shifted_length. fold N. lia. }
  { unfold zeros. apply repeat_length. }
  exists depl, rech. repeat split; auto.
  rewrite (calc_depletion_series w Hm Hy Hp).
  fold N. fold ys. fold bases. fold images. fold zeros.
  rewrite (@accumulate_sums depl_f (with_years bases images w) a Ha
             bases images zeros zeros depl rech).
  - reflexivity.
  - unfold bases, images. now rewrite !length_map.
  - exact Ed.
  - exact Er.
Qed.

End Run.

(** ** The response functions *)

Section WaltonFacts.
Context {sps : Special}.
Local Open Scope R_scope.

Lemma walton_I_eq (G : R) : walton_I G = walton_I_spec G.
Proof. unfold walton_I, walton_I_spec. lra. Qed.

Lemma walton_J_eq (G : R) : walton_J G = walton_J_spec G.
Proof. unfold walton_J, walton_J_spec. now rewrite walton_I_eq. Qed.

Lemma walton_J_ge_1 (G : R) : 0 <= G -> 1 <= walton_J_spec G.
Proof.
  intros HG. unfold walton_J_spec. apply pow_R1_Rle.
  unfold walton_I_spec.
  assert (H2 := pow_le G 2 HG). assert (H3 := pow_le G 3 HG).
  assert (H4 := pow_le G 4 HG). assert (H5 := pow_le G 5 HG).
  assert (H6 := pow_le G 6 HG).
  lra.
Qed.

Lemma walton_G_nonneg (T S dist time : R) :
  0 < T -> 0 < S -> 0 < time ->
  0 < 0.535 * time * T / S /\ 0 <= walton_G_spec T S dist time.
Proof.
  intros HT HS Ht.
  assert (Hx : 0 < 0.535 * time * T / S).
  { apply Rdiv_lt_0_compat; [|assumption].
    apply Rmult_lt_0_compat; [|assumption].
    apply Rmult_lt_0_compat; [lra|assumption]. }
  split; [assumption|].
  unfold walton_G_spec. destruct (Rlt_dec 0 dist); [|lra].
  apply Rlt_le, Rdiv_lt_0_compat; [assumption|].
  now apply sqrt_lt_R0.
Qed.

Lemma walton_scalar (T S dist time Q : R) :
  _walton T S dist (Scalar time) Q = Scalar (walton_spec T S dist time Q).
Proof.
  unfold _walton, walton_spec, walton_G_spec.
  destruct (Rlt_dec 0 dist); simpl; rewrite walton_J_eq; f_equal; lra.
Qed.

Lemma walton_J_spec_0 : walton_J_spec 0 = 1.
Proof.
  unfold walton_J_spec, walton_I_spec.
  rewrite !pow_i by lia.
  replace (1 + 0.0705230784 * 0 + 0.0422820123 * 0 + 0.0092705272 * 0
           + 1.52014e-4 * 0 + 2.76567e-4 * 0 + 4.30638e-5 * 0) with 1 by lra.
  apply pow1.
Qed.



End WaltonFacts.

Section TheisFacts.
Context {sps : Special}.
Local Open Scope R_scope.

Lemma map2_map {A B C D E : Type} (f : C -> D -> E) (g : A -> C)
    (h : B -> D) (l1 : list A) (l2 : list B) :
  map2 f (map g l1) (map h l2) = map2 (fun a b => f (g a) (h b)) l1 l2.
Proof.
  revert l2. induction l1 as [|a l1 IH]; intros [|b l2]; simpl; auto.
  now rewrite IH.
Qed.

Lemma map_map2 {A B C D : Type} (f : A -> B -> C) (g : C -> D)
    (l1 : list A) (l2 : list B) :
  map g (map2 f l1 l2) = map2 (fun a b => g (f a b)) l1 l2.
Proof.
  revert l2. induction l1 as [|a l1 IH]; intros [|b l2]; simpl; auto.
  now rewrite IH.
Qed.

(** C7.  For positive [T], [S] and times, the two denominators of the Theis
    formula are not zero, and [_theis] returns
    [(Q / (4 * PI * T)) * exp1 u] with [u = dist^2 * S / (4 * T * time)]:
    for two floats, elementwise over a list or array of times or of
    distances, and pairwise over two arrays of one length. *)
Theorem theis_formula (T S Q : R) (time dist : pyarg) :
  0 < T -> 0 < S -> all_positive (list_to_array time) ->
  4 * PI * T <> 0 /\
  match list_to_array time, list_to_array dist with
  | Scalar t, Scalar d =>
      4 * T * t <> 0 /\
      _theis T S time dist Q = Ok (Scalar (theis_spec T S t d Q))
  | Arr ts, Scalar d =>
      Forall (fun t => 4 * T * t <> 0) ts /\
      _theis T S time dist Q
      = Ok (Arr (map (fun t => theis_spec T S t d Q) ts))
  | Scalar t, Arr ds =>
      4 * T * t <> 0 /\
      _theis T S time dist Q
      = Ok (Arr (map (fun d => theis_spec T S t d Q) ds))
  | Arr ts, Arr ds =>
      Forall (fun t => 4 * T * t <> 0) ts /\
      (length ts = length ds ->
       _theis T S time dist Q
       = Ok (Arr (map2 (fun d t => theis_spec T S t d Q) ds ts)))
  end.
Proof.
  intros HT HS Hpos.
  assert (Hpi := PI_RGT_0).
  assert (H4 : 4 * PI * T <> 0).
  { apply Rgt_not_eq. apply Rmult_lt_0_compat; [lra|assumption]. }
  split; [exact H4|].
  assert (Hden : forall t, 0 < t -> 4 * T * t <> 0).
  { intros t Ht. apply Rgt_not_eq.
    apply Rmult_lt_0_compat; [lra|assumption]. }
  unfold _theis.
  destruct (Req_EM_T (4 * PI * T) 0) as [E|_]; [contradiction|].
  destruct (list_to_array time) as [t|ts], (list_to_array dist) as [d|ds];
    simpl in Hpos; cbn [nd_map truediv].
  - split; [now apply Hden|].
    destruct (Req_EM_T (4 * T * t) 0) as [E|_];
      [exfalso; now apply (Hden t)|].
    reflexivity.
  - split; [now apply Hden|]. simpl. now rewrite !map_map.
  - split; [eapply Forall_impl; [exact Hden | exact Hpos]|].
    simpl. now rewrite !map_map.
  - split; [eapply Forall_impl; [exact Hden | exact Hpos]|].
    intros L. simpl. rewrite !length_map, <- L, Nat.eqb_refl. simpl.
    now rewrite map2_map, map_map2.
Qed.

End TheisFacts.

Lemma theis_formula_witness :
  (_theis (sps := sps_example) 1000 0.2 (PyList [10; 20]) (PyFloat 300) 50000
   = Ok (Arr (map (fun t => theis_spec (sps := sps_example) 1000 0.2 t 300
                               50000) [10; 20])))%R.
Proof.
  destruct (@theis_formula sps_example 1000 0.2 50000 (PyList [10; 20])
              (PyFloat 300))%R as (_ & _ & H).
  - lra.
  - lra.
  - simpl. repeat constructor; lra.
  - exact H.
Defined.

(** ** The cached properties of [WellResponse] *)

Section ResponseProperties.
Context {sps : Special}.

Lemma dict_get_none {V : Type} (d : dict V) (k : string) :
  dict_get d k = None <-> ~ In k (keys d).
Proof.
  induction d as [|[k' v] d IH]; simpl.
  - tauto.
  - destruct (String.eqb_spec k' k) as [E|E].
    + split; [discriminate | intros H; exfalso; auto].
    + rewrite IH. tauto.
Qed.

Lemma getitem_missing {V : Type} (d : dict V) (k : string) :
  ~ In k (keys d) -> getitem d k = Raise KeyError.
Proof.
  intros H. unfold getitem. apply dict_get_none in H. now rewrite H.
Qed.



Lemma drawdown_first (w : WellResponse.t) :
  WellResponse._drawdown w = None ->
  WellResponse.drawdown w
  = match WellResponse._calc_drawdown w with
    | Ok v => (Ok v, WellResponse.set__drawdown (Some v) w)
    | Raise e => (Raise e, w)
    end.
Proof.
  intros H. unfold WellResponse.drawdown, bind, get, ret, lift, modify.
  rewrite H. now destruct (WellResponse._calc_drawdown w).
Qed.

Lemma depletion_first (w : WellResponse.t) :
  WellResponse._depletion w = None ->
  WellResponse.depletion w
  = match WellResponse._calc_depletion w with
    | (Ok v, w') => (Ok v, WellResponse.set__depletion (Some v) w')
    | (Raise e, w') => (Raise e, w')
    end.
Proof.
  intros H. unfold WellResponse.depletion, bind, get, ret, lift, modify.
  rewrite H. now destruct (WellResponse._calc_depletion w) as [[v|e] w'].
Qed.

(** [_calc_depletion] writes [baseyears] and [imageyears] only. *)
Lemma for_years_slots (base0 : list Z) (dpt : Z) (ys : list Z)
    (w : WellResponse.t) :
  same_slots w (snd (for_ ys (WellResponse.year_body base0 dpt) w)).
Proof.
  revert w. induction ys as [|y ys IH]; intros w.
  - now split.
  - simpl for_. unfold bind at 1. unfold WellResponse.year_body.
    unfold bind, lift, modify.
    destruct (set_tail _ _ _) as [cby|e]; [|now split].
    destruct (set_tail _ _ _) as [ciy|e]; [|now split].
    destruct (IH (WellResponse.append_years cby ciy w)) as [H1 H2].
    destruct (for_ ys _ _) as [[u|e] w']; simpl in *; now split.
Qed.

Lemma calc_depletion_slots (w : WellResponse.t) :
  same_slots w (snd (WellResponse._calc_depletion w)).
Proof.
  unfold WellResponse._calc_depletion.
  unfold bind at 1. unfold get at 1.
  unfold bind at 1. unfold lift at 1.
  destruct (getitem _ _) as [depl_f|e]; [|now split].
  unfold bind at 1. unfold modify at 1.
  unfold bind at 1. unfold modify at 1.
  unfold bind at 1. unfold lift at 1.
  destruct (set_tail _ _ _) as [image0|e]; [|now split].
  unfold bind at 1. unfold modify at 1.
  unfold bind at 1.
  match goal with
  | |- context [for_ ?ys (WellResponse.year_body ?b ?d) ?s] =>
      pose proof (for_years_slots b d ys s) as Hs;
      destruct (for_ ys (WellResponse.year_body b d) s) as [[u|e] w1]
  end; simpl in Hs; [|exact Hs].
  unfold bind, WellResponse.getattr, get, lift, ret.
  destruct (WellResponse.baseyears w1); [|exact Hs].
  destruct (WellResponse.imageyears w1); [|exact Hs].
  destruct (WellResponse.accumulate _ _ _ _ _); exact Hs.
Qed.

End ResponseProperties.

(** An access sequence fills a slot at most once, for any object whose
    filled slots stay filled and whose successful accesses fill theirs. *)
Section Once.
Variables (St : Type) (step : access -> St -> bool * St)
          (unset : access -> St -> bool).
Hypothesis filled_stays :
  forall a k w, unset k w = false -> unset k (snd (step a w)) = false.
Hypothesis success_fills :
  forall k w, fst (step k w) = true -> unset k (snd (step k w)) = false.




Lemma run_filled (k : access) (l : list access) (w : St) :
  unset k w = false -> unset k (run_accesses step l w) = false.
Proof.
  revert w. induction l as [|a l IH]; intros w H; simpl; [assumption|].
  apply IH. now apply filled_stays.
Qed.

End Once.

Section Memoization.
Context {sps : Special}.



(** A failed first access leaves the slot unset. *)
Lemma depletion_failed (w : WellResponse.t) (e : exn) :
  WellResponse._depletion w = None ->
  fst (WellResponse._calc_depletion w) = Raise e ->
  fst (WellResponse.depletion w) = Raise e /\
  WellResponse._depletion (snd (WellResponse.depletion w)) = None.
Proof.
  intros E H. rewrite (depletion_first _ E).
  destruct (calc_depletion_slots w) as [_ H2]. rewrite E in H2.
  destruct (WellResponse._calc_depletion w) as [[v|e'] w']; simpl in *;
    [discriminate|]. split; congruence.
Qed.




Lemma well_depletion_cached (w : Well.t) (d : dict (list R)) :
  Well._depletion w = Some d -> Well.depletion w = (Ok d, w).
Proof. intros H. unfold Well.depletion. now rewrite H. Qed.







End Memoization.

Section MemoizationClaims.
Context {sps : Special}.






(** C6.  [WellResponse.__init__] returns an object with both slots unset
    whatever the method names are; when the lowercase drawdown (depletion)
    name is not a key of its registry, the access to [drawdown]
    ([depletion]) raises [KeyError] and leaves the object as it was built. *)
Theorem unknown_method_is_lazy (name response_type : string)
    (T S dist Q : R) (apportionment : option R) (dd_method depl_method : string)
    (theis_time : pyarg) (depl_pump_time depletion_years : Z) :
  let w := WellResponse.init name response_type T S dist Q apportionment
             dd_method depl_method theis_time depl_pump_time
             depletion_years in
  keys ALL_DD_METHODS = ["theis"%string] /\
  keys ALL_DEPL_METHODS = ["glover"%string; "walton"%string] /\
  WellResponse._drawdown w = None /\ WellResponse._depletion w = None /\
  (~ In (lower dd_method) (keys ALL_DD_METHODS) ->
   WellResponse.drawdown w = (Raise KeyError, w)) /\
  (~ In (lower depl_method) (keys ALL_DEPL_METHODS) ->
   WellResponse.depletion w = (Raise KeyError, w)).
Proof.
  intros w. repeat split.
  - intros H. rewrite drawdown_first by reflexivity.
    unfold WellResponse._calc_drawdown.
    change (WellResponse.dd_method w) with dd_method.
    now rewrite (getitem_missing _ _ H).
  - intros H. rewrite depletion_first by reflexivity.
    unfold WellResponse._calc_depletion.
    unfold bind at 1. unfold get at 1.
    unfold bind at 1. unfold lift at 1.
    change (WellResponse.depl_method w) with depl_method.
    now rewrite (getitem_missing _ _ H).
Qed.

End MemoizationClaims.


Lemma unknown_method_is_lazy_witness :
  let w := WellResponse.init "creek" "stream" 1000 0.2 300 50000 (Some 1%R)
             "Hantush" "Hunt" (PyFloat 10) 0 1 in
  WellResponse.drawdown (sps := sps_example) w = (Raise KeyError, w) /\
  WellResponse.depletion (sps := sps_example) w = (Raise KeyError, w).
Proof.
  intros w.
  destruct (@unknown_method_is_lazy sps_example "creek" "stream" 1000 0.2
              300 50000 (Some 1%R) "Hantush" "Hunt" (PyFloat 10) 0 1)
    as (_ & _ & _ & _ & H1 & H2).
  split; [apply H1 | apply H2]; vm_compute; intuition discriminate.
Defined.

(** ** The constructor of [Well] *)

Section WellConstruction.

Lemma mem_In (k : string) (l : list string) : mem k l = true <-> In k l.
Proof.
  unfold mem. rewrite existsb_exists. split.
  - intros [x [Hx E]]. apply String.eqb_eq in E. now subst.
  - intros H. exists k. split; [assumption | apply String.eqb_refl].
Qed.

(** The asserted set difference is empty exactly when every name of the
    first list is in the second. *)
Lemma set_diff_empty (a b : list string) :
  length (set_diff a b) = 0%nat <-> incl a b.
Proof.
  unfold set_diff, incl. induction a as [|k a IH]; simpl.
  - split; [intros _ x [] | reflexivity].
  - destruct (mem k b) eqn:E; simpl.
    + rewrite IH. apply mem_In in E. split.
      * intros H x [<-|Hx]; auto.
      * intros H x Hx. apply H. now right.
    + split; [discriminate|]. intros H.
      assert (Hk : In k b) by (apply H; now left).
      apply mem_In in Hk. congruence.
Qed.

Lemma dict_get_some {V : Type} (d : dict V) (k : string) :
  In k (keys d) -> exists v, dict_get d k = Some v.
Proof.
  intros H. destruct (dict_get d k) as [v|] eqn:E; [now exists v|].
  apply dict_get_none in E. contradiction.
Qed.

(** The stream loop of [__init__] succeeds when every stream has an
    apportionment. *)
Lemma make_stream_responses_ok (T S Q : R) (dpt : Z) (sa : dict R)
    (items : dict R) :
  incl (keys items) (keys sa) ->
  forall cs, exists srs,
    Well.make_stream_responses T S Q dpt sa cs items = Ok srs /\
    length srs = length items /\
    Forall (fun p => stream_response_ok dpt (snd p)) srs.
Proof.
  induction items as [|[cname cdist] items IH]; intros Hin cs.
  - exists []. repeat split. constructor.
  - simpl. destruct (dict_get_some sa cname) as [a Ea].
    { apply Hin. now left. }
    unfold getitem. rewrite Ea. simpl.
    destruct (IH (fun k Hk => Hin k (or_intror Hk)) (cs + 1)%Z)
      as [srs [E [L F]]].
    rewrite E. simpl. eexists. split; [reflexivity|].
    split; [simpl; now rewrite L|].
    constructor; [|assumption].
    simpl. unfold stream_response_ok. simpl. repeat split. now exists a.
Qed.

End WellConstruction.

Section WellInit.
Local Open Scope Z_scope.

(** C3 (amended).  With a stream-distance and an apportionment mapping, the
    constructor of [Well] fails at its assertion exactly when some stream
    name of the distance mapping has no apportionment; when every one has,
    and a drawdown-distance mapping is given, it returns a well with both
    slots unset and one response per stream, none of them computed. *)
Theorem well_init_assertion (well_loc : option (R * R))
    (well_status : string) (T S Q : R) (depletion_years : Z)
    (theis_dd_time : pyarg) (depl_pump_time : Z) (sd : dict R)
    (drawdown_dist : option (dict R))
    (stream_locs drawdown_locs : option (dict (R * R))) (sa : dict R) :
  let r := Well.init well_loc well_status T S Q depletion_years
             theis_dd_time depl_pump_time (Some sd) drawdown_dist
             stream_locs drawdown_locs (Some sa) in
  (r = Raise AssertionError <-> ~ incl (keys sd) (keys sa)) /\
  (incl (keys sd) (keys sa) ->
   forall dd, drawdown_dist = Some dd ->
     exists w, r = Ok w /\
       Well._depletion w = None /\ Well._drawdown w = None /\
       length (Well.stream_responses w) = length sd /\
       Forall (fun p => stream_response_ok depl_pump_time (snd p))
         (Well.stream_responses w)).
Proof.
  intros r. subst r. unfold Well.init. cbn [Well.the_dict rbind].
  destruct (length (set_diff (keys sd) (keys sa)) =? 0)%nat eqn:E.
  - apply Nat.eqb_eq, set_diff_empty in E.
    destruct (@make_stream_responses_ok T S Q depl_pump_time sa sd E 0)
      as [srs [Es [L F]]].
    split.
    + split; [|intros H; contradiction].
      destruct drawdown_dist as [dd|]; cbn; [|discriminate].
      rewrite Es. cbn. discriminate.
    + intros _ dd ->. cbn. rewrite Es. cbn.
      eexists. split; [reflexivity|]. cbn. auto.
  - cbn [rbind]. split.
    + split; [|reflexivity]. intros _ H.
      apply set_diff_empty in H. apply Nat.eqb_neq in E. contradiction.
    + intros H. apply set_diff_empty in H. apply Nat.eqb_neq in E.
      contradiction.
Qed.

End WellInit.

Lemma well_init_assertion_witness :
  exists w,
    Well.init None "pending" 1000 0.2 50000 1 (PyFloat 10) 0
      (Some [("creekA"%string, 500%R)]) (Some [("obs"%string, 300%R)])
      None None (Some [("creekA"%string, 1%R)]) = Ok w /\
    Well._depletion w = None /\ Well._drawdown w = None.
Proof.
  destruct (@well_init_assertion None "pending" 1000 0.2 50000 1
              (PyFloat 10) 0 [("creekA"%string, 500%R)]
              (Some [("obs"%string, 300%R)]) None None
              [("creekA"%string, 1%R)]) as [_ H].
  destruct (H (fun k Hk => Hk) _ eq_refl) as [w [E [H1 [H2 _]]]].
  exists w. auto.
Defined.

(** C3, as stated, fails: the apportionment mapping has a name that the
    distance mapping has not, and the well is constructed. *)
Lemma well_init_unequal_keys_accepted :
  let sd := [("creekA"%string, 500%R)] in
  let sa := [("creekA"%string, 1%R); ("creekB"%string, 0%R)] in
  ~ (forall k, In k (keys sd) <-> In k (keys sa)) /\
  exists w,
    Well.init None "pending" 1000 0.2 50000 1 (PyFloat 10) 0
      (Some sd) (Some []) None None (Some sa) = Ok w.
Proof.
  split.
  - intros H. destruct (proj2 (H "creekB"%string)) as [E|[]].
    + simpl. auto.
    + discriminate E.
  - eexists. reflexivity.
Qed.

(** ** Pumping offsets outside one year *)

Section Offsets.
Context {sps : Special}.
Local Open Scope Z_scope.

Lemma in_repeat_iff {A : Type} (x y : A) (n : nat) :
  In y (repeat x n) <-> y = x /\ (1 <= n)%nat.
Proof.
  induction n as [|n IH]; simpl.
  - split; [tauto | lia].
  - rewrite IH. split.
    + intros [->|[-> _]]; split; auto; lia.
    + intros [-> _]. now left.
Qed.

(** The entries of a shifted series: zero in front when the shift is
    positive, then the day indices that still fit. *)
Lemma in_shifted (N k x : Z) :
  0 <= k <= N ->
  (In x (shifted N k) <-> (x = 0 /\ 1 <= k) \/ 1 <= x <= N - k).
Proof.
  intros H. rewrite shifted_eq by assumption.
  rewrite in_app_iff, in_repeat_iff, in_arange. lia.
Qed.

(** A negative start: the slice has at most [N] slots and the source
    [N - k], so the assignment raises. *)
Lemma image0_negative (N k : Z) :
  1 <= N -> k < 0 ->
  let image0 := zeros_like (arange 1 (N + 1)) in
  (length image0 - Z.to_nat (slice_bound (len image0) k)
   < length (arange 1 (len image0 - k + 1)))%nat /\
  set_tail image0 k (arange 1 (len image0 - k + 1)) = Raise ValueError.
Proof.
  intros HN Hk image0.
  assert (L : length image0 = Z.to_nat N).
  { unfold image0, zeros_like. rewrite repeat_length, arange_length. lia. }
  assert (L' : len image0 = N) by (unfold len; lia).
  assert (Ls : length (arange 1 (len image0 - k + 1)) = Z.to_nat (N - k)).
  { rewrite arange_length, L'. f_equal. lia. }
  assert (Hb : 0 <= slice_bound (len image0) k).
  { unfold slice_bound. destruct (Z.ltb_spec k 0); lia. }
  split; [lia|].
  unfold set_tail.
  destruct (Nat.eqb_spec (length (arange 1 (len image0 - k + 1)))
              (length image0 - Z.to_nat (slice_bound (len image0) k)))
    as [E|_]; [lia|].
  destruct (arange 1 (len image0 - k + 1)) as [|x [|y src]];
    simpl in Ls; try reflexivity; lia.
Qed.

Lemma calc_depletion_negative (w : WellResponse.t) (depl_f : depl_fn) :
  getitem ALL_DEPL_METHODS (lower (WellResponse.depl_method w)) = Ok depl_f ->
  1 <= WellResponse.depletion_years w ->
  WellResponse.depl_pump_time w < 0 ->
  let base0 := arange 1 (365 * WellResponse.depletion_years w + 1) in
  WellResponse._calc_depletion w
  = (Raise ValueError, with_years [base0] [zeros_like base0] w).
Proof.
  intros Hm Hy Hp base0.
  unfold WellResponse._calc_depletion.
  unfold bind at 1. unfold get at 1.
  unfold bind at 1. unfold lift at 1. rewrite Hm.
  unfold bind at 1. unfold modify at 1.
  unfold bind at 1. unfold modify at 1.
  unfold bind at 1. unfold lift at 1.
  destruct (@image0_negative (365 * WellResponse.depletion_years w)
              (WellResponse.depl_pump_time w)) as [_ E]; [lia | lia |].
  cbv zeta in E. rewrite E. reflexivity.
Qed.

Lemma map2_minus_self (l : list R) :
  map2 Rminus l l = repeat 0%R (length l).
Proof.
  induction l as [|x l IH]; simpl; [reflexivity|].
  rewrite IH. f_equal. apply Rminus_diag.
Qed.

End Offsets.

(** ** The depletion series *)

Section Depletion.
Context {sps : Special}.
Local Open Scope Z_scope.


(** C5 (amended).  Under the same conditions the depletion series has
    exactly [365 * depletion_years] entries, whatever the pumping offset
    between 0 and 365 days is; the first access to [depletion] returns it and
    stores it. *)
Theorem depletion_length (w : WellResponse.t) (depl_f : depl_fn) (a : R) :
  getitem ALL_DEPL_METHODS (lower (WellResponse.depl_method w)) = Ok depl_f ->
  WellResponse.stream_apportionment w = Some a ->
  1 <= WellResponse.depletion_years w ->
  0 <= WellResponse.depl_pump_time w <= 365 ->
  exists v,
    fst (WellResponse._calc_depletion w) = Ok v /\
    len v = 365 * WellResponse.depletion_years w /\
    (WellResponse._depletion w = None ->
     fst (WellResponse.depletion w) = Ok v /\
     WellResponse._depletion (snd (WellResponse.depletion w)) = Some v).
Proof.
  intros Hm Ha Hy Hp.
  destruct (calc_depletion_run w Hm Ha Hy Hp)
    as (depl & rech & _ & _ & Ld & Lr & E).
  exists (map2 Rminus depl rech). rewrite E.
  split; [reflexivity|]. split.
  - unfold len. rewrite map2_length by congruence. rewrite Ld. lia.
  - intros Hn. rewrite (depletion_first _ Hn), E. now split.
Qed.

End Depletion.

(** ** Negative pumping offsets *)

Section NegativeOffsets.
Context {sps : Special}.
Local Open Scope Z_scope.

Lemma make_stream_responses_inv (T S Q : R) (dpt : Z) (sa : dict R)
    (items : dict R) :
  forall cs srs,
    Well.make_stream_responses T S Q dpt sa cs items = Ok srs ->
    Forall (fun p => stream_response_ok dpt (snd p)) srs.
Proof.
  induction items as [|[cname cdist] items IH]; intros cs srs; simpl.
  - intros E. injection E as <-. constructor.
  - destruct (getitem sa cname) as [a|]; simpl; [|discriminate].
    destruct (Well.make_stream_responses T S Q dpt sa (cs + 1) items)
      as [rest|] eqn:E; simpl; [|discriminate].
    intros E'. injection E' as <-. constructor; [|now apply (IH (cs + 1))].
    simpl. unfold stream_response_ok. simpl. repeat split. now exists a.
Qed.

(** The stream responses of a constructed well. *)
Lemma well_init_streams (well_loc : option (R * R)) (well_status : string)
    (T S Q : R) (depletion_years : Z) (theis_dd_time : pyarg)
    (depl_pump_time : Z) (stream_dist drawdown_dist : option (dict R))
    (stream_locs drawdown_locs : option (dict (R * R)))
    (stream_apportionment : option (dict R)) (well : Well.t) :
  Well.init well_loc well_status T S Q depletion_years theis_dd_time
    depl_pump_time stream_dist drawdown_dist stream_locs drawdown_locs
    stream_apportionment = Ok well ->
  Forall (fun p => stream_response_ok depl_pump_time (snd p))
    (Well.stream_responses well).
Proof.
  unfold Well.init.
  destruct stream_dist as [sd|]; cbn; [|discriminate].
  destruct stream_apportionment as [sa|]; cbn; [|discriminate].
  destruct (length (set_diff (keys sd) (keys sa)) =? 0)%nat; cbn;
    [|discriminate].
  destruct drawdown_dist as [dd|]; cbn; [|discriminate].
  destruct (Well.make_stream_responses T S Q depl_pump_time sa 0 sd)
    as [srs|] eqn:E; cbn; [|discriminate].
  intros E'. injection E' as <-. cbn.
  now apply make_stream_responses_inv in E.
Qed.

Lemma walton_registered :
  exists depl_f, getitem ALL_DEPL_METHODS (lower "walton") = Ok depl_f.
Proof. eexists. reflexivity. Qed.

(** C10.  For a response with at least one year and a negative pumping
    offset: the day indices assigned to the tail of the year-0 image array
    are more than the slots of that tail; with a method of the registry
    [_calc_depletion] raises [ValueError] at that assignment, when only the
    year-0 arrays exist; the first access to [depletion] raises and leaves
    the slot unset.  The defaults of the two constructors are negative, and
    a well constructed with a negative offset passes it to every stream
    response, each of which raises at its first access. *)
Theorem negative_pump_time_raises :
  (forall w : WellResponse.t,
     1 <= WellResponse.depletion_years w ->
     WellResponse.depl_pump_time w < 0 ->
     let base0 := arange 1 (365 * WellResponse.depletion_years w + 1) in
     let image0 := zeros_like base0 in
     let k := WellResponse.depl_pump_time w in
     (length image0 - Z.to_nat (slice_bound (len image0) k)
      < length (arange 1 (len image0 - k + 1)))%nat /\
     (forall depl_f,
        getitem ALL_DEPL_METHODS (lower (WellResponse.depl_method w))
        = Ok depl_f ->
        WellResponse._calc_depletion w
        = (Raise ValueError, with_years [base0] [image0] w)) /\
     (WellResponse._depletion w = None ->
      exists e,
        fst (WellResponse.depletion w) = Raise e /\
        WellResponse._depletion (snd (WellResponse.depletion w)) = None /\
        (In (lower (WellResponse.depl_method w)) (keys ALL_DEPL_METHODS) ->
         e = ValueError))) /\
  WellResponse.default_depl_pump_time = -99999 /\
  Well.default_depl_pump_time = -9999 /\
  (forall well_loc well_status T S Q depletion_years theis_dd_time
          depl_pump_time stream_dist drawdown_dist stream_locs drawdown_locs
          stream_apportionment well,
     depl_pump_time < 0 ->
     Well.init well_loc well_status T S Q depletion_years theis_dd_time
       depl_pump_time stream_dist drawdown_dist stream_locs drawdown_locs
       stream_apportionment = Ok well ->
     forall p, In p (Well.stream_responses well) ->
       WellResponse.depl_pump_time (snd p) = depl_pump_time /\
       fst (WellResponse.depletion (snd p)) = Raise ValueError /\
       WellResponse._depletion (snd (WellResponse.depletion (snd p)))
       = None).
Proof.
  split; [|split; [reflexivity|split; [reflexivity|]]].
  - intros w Hy Hp base0 image0 k.
    split; [|split].
    + apply (@image0_negative (365 * WellResponse.depletion_years w) k);
        unfold k; lia.
    + intros depl_f Hm. apply (calc_depletion_negative w Hm Hy Hp).
    + intros Hn.
      destruct (getitem ALL_DEPL_METHODS
                  (lower (WellResponse.depl_method w))) as [depl_f|e] eqn:Hm.
      * exists ValueError.
        destruct (@depletion_failed sps w ValueError Hn) as [H1 H2].
        { now rewrite (calc_depletion_negative w Hm Hy Hp). }
        auto.
      * exists e.
        destruct (@depletion_failed sps w e Hn) as [H1 H2].
        { unfold WellResponse._calc_depletion.
          unfold bind at 1. unfold get at 1.
          unfold bind at 1. unfold lift at 1. now rewrite Hm. }
        split; [assumption|]. split; [assumption|].
        intros Hin. exfalso. unfold getitem in Hm.
        destruct (dict_get_some ALL_DEPL_METHODS _ Hin) as [f Ef].
        rewrite Ef in Hm. discriminate.
  - intros well_loc well_status T S Q depletion_years theis_dd_time
      depl_pump_time stream_dist drawdown_dist stream_locs drawdown_locs
      stream_apportionment well Hp Hw p Hin.
    apply well_init_streams in Hw.
    rewrite Forall_forall in Hw. specialize (Hw p Hin).
    destruct Hw as (Hk & Hy & Hm & Hn & _ & _).
    destruct walton_registered as [depl_f Hf]. rewrite <- Hm in Hf.
    split; [assumption|].
    apply depletion_failed; [assumption|].
    rewrite (calc_depletion_negative (snd p) Hf); [reflexivity | lia | lia].
Qed.

End NegativeOffsets.


Lemma depletion_length_witness :
  let w := WellResponse.init "creek" "stream" 1000 0.2 300 50000 (Some 1%R)
             "Theis" "Walton" (PyFloat 10) 365 2 in
  exists v : list R,
    fst (WellResponse.depletion (sps := sps_example) w) = Ok v /\
    len v = 730%Z.
Proof.
  intros w.
  destruct (@depletion_length sps_example w
              (fun T S a3 a4 Q => Ok (_walton T S a3 a4 Q)) 1%R)
    as (v & _ & L & H).
  - reflexivity.
  - reflexivity.
  - vm_compute. discriminate.
  - vm_compute. split; discriminate.
  - exists v. split; [apply H; reflexivity | exact L].
Defined.

Lemma negative_pump_time_raises_witness :
  let w := WellResponse.init "creek" "stream" 1000 0.2 300 50000 (Some 1%R)
             WellResponse.default_dd_method WellResponse.default_depl_method
             WellResponse.default_theis_time
             WellResponse.default_depl_pump_time
             WellResponse.default_depletion_years in
  fst (WellResponse.depletion (sps := sps_example) w) = Raise ValueError.
Proof.
  intros w.
  destruct (proj1 (@negative_pump_time_raises sps_example) w)
    as (_ & _ & H).
  - vm_compute. discriminate.
  - reflexivity.
  - destruct (H eq_refl) as (e & E & _ & He).
    rewrite E. f_equal. apply He. vm_compute. auto.
Defined.


(** C5, as stated, fails: three years and a pumping offset of 366 days,
    within [0 .. 365 * 3]; the access to [depletion] raises and there is no
    array. *)
Lemma no_depletion_array_for_366_days :
  let w := WellResponse.init "creek" "stream" 1000 0.2 300 50000 (Some 1%R)
             "Theis" "walton" (PyFloat 10) 366 3 in
  (1 <= WellResponse.depletion_years w)%Z /\
  (0 <= WellResponse.depl_pump_time w
   <= 365 * WellResponse.depletion_years w)%Z /\
  fst (WellResponse.depletion (sps := sps_example) w) = Raise ValueError /\
  WellResponse._depletion (snd (WellResponse.depletion (sps := sps_example) w))
  = None.
Proof.
  intros w.
  split; [vm_compute; discriminate|].
  split; [vm_compute; split; discriminate|].
  split; vm_compute; reflexivity.
Qed.

(** ** Further properties of the superposition code *)

Section SeriesEntries.
Context {sps : Special}.
Local Open Scope Z_scope.

Lemma nth_arange (a b i : Z) :
  0 <= i < b - a -> nth (Z.to_nat i) (arange a b) 0 = a + i.
Proof.
  intros H. unfold arange.
  set (f := fun j : nat => a + Z.of_nat j).
  rewrite (nth_indep _ 0 (f 0%nat))
    by (rewrite length_map, length_seq; lia).
  rewrite (map_nth f), seq_nth by lia. unfold f. lia.
Qed.

(** Entry [i] of a shifted series. *)
Lemma nth_shifted (N k i : Z) :
  0 <= k <= N -> 0 <= i < N ->
  nth (Z.to_nat i) (shifted N k) 0 = Z.max 0 (i + 1 - k).
Proof.
  intros Hk Hi. rewrite shifted_eq by assumption.
  destruct (Z.lt_ge_cases i k) as [L|G].
  - rewrite app_nth1 by (rewrite repeat_length; lia).
    rewrite nth_repeat. lia.
  - rewrite app_nth2 by (rewrite repeat_length; lia).
    rewrite repeat_length.
    replace (Z.to_nat i - Z.to_nat k)%nat with (Z.to_nat (i - k)) by lia.
    rewrite nth_arange by lia. lia.
Qed.

Lemma nth_map_range (A : Type) (f : Z -> A) (n y : Z) (d : A) :
  0 <= y < n -> nth (Z.to_nat y) (map f (range 0 n)) d = f y.
Proof.
  intros H.
  rewrite (nth_indep _ d (f 0)) by (rewrite length_map, range_length; lia).
  rewrite (map_nth f). unfold range. rewrite nth_arange by lia. f_equal.
Qed.

(** X1.  With a method of the registry, at least one year and a pumping
    offset between 0 and 365 days, [_calc_depletion] leaves one base and one
    image array per year on the object; on day [i + 1] the base array of
    year [y] holds [max 0 (i + 1 - 365 * y)] and the image array
    [max 0 (i + 1 - 365 * y - depl_pump_time)]. *)
Theorem series_entries (w : WellResponse.t) (depl_f : depl_fn) :
  getitem ALL_DEPL_METHODS (lower (WellResponse.depl_method w)) = Ok depl_f ->
  1 <= WellResponse.depletion_years w ->
  0 <= WellResponse.depl_pump_time w <= 365 ->
  let N := 365 * WellResponse.depletion_years w in
  let w' := snd (WellResponse._calc_depletion w) in
  exists bys iys,
    WellResponse.baseyears w' = Some bys /\
    WellResponse.imageyears w' = Some iys /\
    len bys = WellResponse.depletion_years w /\
    len iys = WellResponse.depletion_years w /\
    forall y i,
      0 <= y < WellResponse.depletion_years w -> 0 <= i < N ->
      nth (Z.to_nat i) (nth (Z.to_nat y) bys []) 0
      = Z.max 0 (i + 1 - 365 * y) /\
      nth (Z.to_nat i) (nth (Z.to_nat y) iys []) 0
      = Z.max 0 (i + 1 - 365 * y - WellResponse.depl_pump_time w).
Proof.
  intros Hm Hy Hp N w'. subst w'.
  rewrite (calc_depletion_series w Hm Hy Hp). cbn [snd]. fold N.
  eexists. eexists. split; [reflexivity|]. split; [reflexivity|].
  split; [unfold len; rewrite length_map, range_length; lia|].
  split; [unfold len; rewrite length_map, range_length; lia|].
  intros y i Hyy Hi.
  rewrite !nth_map_range by assumption.
  rewrite !nth_shifted by (unfold N; lia).
  split; f_equal; lia.
Qed.

(** An image array that starts behind the horizon: the slice is empty, the
    day indices read with a negative stop are not. *)
Lemma year_image_overflow (N k : Z) :
  N < k <= 2 * N - 2 ->
  let base0 := arange 1 (N + 1) in
  set_tail (zeros_like base0) k
    (get_slice base0 0 (len (zeros_like base0) - k))
  = Raise ValueError.
Proof.
  intros H base0. subst base0.
  assert (L : length (arange 1 (N + 1)) = Z.to_nat N)
    by (rewrite arange_length; f_equal; lia).
  assert (Lz : len (zeros_like (arange 1 (N + 1))) = N)
    by (rewrite len_zeros_like; unfold len; lia).
  assert (Ls : length (get_slice (arange 1 (N + 1)) 0 (N - k))
               = Z.to_nat (2 * N - k)).
  { unfold get_slice, len. rewrite L.
    replace (Z.of_nat (Z.to_nat N)) with N by lia.
    unfold slice_bound.
    destruct (Z.ltb_spec 0 0); [lia|].
    destruct (Z.ltb_spec (N - k) 0); [|lia].
    rewrite length_firstn, length_skipn, L. lia. }
  assert (Lzn : length (zeros_like (arange 1 (N + 1))) = Z.to_nat N)
    by (unfold zeros_like; now rewrite repeat_length).
  rewrite Lz. unfold set_tail. rewrite Ls, Lz, Lzn.
  unfold slice_bound. destruct (Z.ltb_spec k 0); [lia|].
  rewrite Z.min_r by lia.
  destruct (Nat.eqb_spec (Z.to_nat (2 * N - k))
              (Z.to_nat N - Z.to_nat N)) as [E|_]; [lia|].
  destruct (get_slice (arange 1 (N + 1)) 0 (N - k)) as [|x [|x' src]];
    cbn [length] in Ls; try reflexivity; lia.
Qed.

(** The loop over the years stops with [ValueError] at the first year whose
    image array would start behind the horizon. *)
Lemma years_loop_overflow (N dpt : Z) (ys : list Z) :
  0 <= N ->
  (forall y, In y ys -> 0 <= 365 * y <= N /\ 0 <= 365 * y + dpt <= 2 * N - 2) ->
  (exists y, In y ys /\ N < 365 * y + dpt) ->
  forall w : WellResponse.t,
    fst (for_ ys (WellResponse.year_body (arange 1 (N + 1)) dpt) w)
    = Raise ValueError.
Proof.
  intros HN. induction ys as [|y ys IH]; intros Hys [y0 [Hin Hov]] w.
  - destruct Hin.
  - destruct (Hys y (or_introl eq_refl)) as [Hb Hi].
    simpl for_. unfold bind at 1. unfold WellResponse.year_body.
    unfold bind, lift, modify.
    rewrite <- (len_zeros_like (arange 1 (N + 1))) at 1.
    rewrite (year_arrays (k := 365 * y)) by assumption.
    destruct (Z.le_gt_cases (365 * y + dpt) N) as [Hle|Hgt].
    + rewrite (year_arrays (k := 365 * y + dpt)) by lia.
      apply IH.
      * intros y' Hy'. apply Hys. now right.
      * exists y0. split; [|assumption].
        destruct Hin as [<-|Hin]; [lia | assumption].
    + now rewrite (year_image_overflow (k := 365 * y + dpt)) by lia.
Qed.

(** X2.  With a method of the registry, at least two years and a pumping
    offset of more than 365 days and at most the horizon, [_calc_depletion]
    raises [ValueError], and an access to the unset [depletion] raises it
    and leaves the slot unset. *)
Theorem offset_beyond_one_year_raises (w : WellResponse.t)
    (depl_f : depl_fn) :
  getitem ALL_DEPL_METHODS (lower (WellResponse.depl_method w)) = Ok depl_f ->
  2 <= WellResponse.depletion_years w ->
  365 < WellResponse.depl_pump_time w
        <= 365 * WellResponse.depletion_years w ->
  fst (WellResponse._calc_depletion w) = Raise ValueError /\
  (WellResponse._depletion w = None ->
   fst (WellResponse.depletion w) = Raise ValueError /\
   WellResponse._depletion (snd (WellResponse.depletion w)) = None).
Proof.
  intros Hm Hy Hp.
  set (N := 365 * WellResponse.depletion_years w) in *.
  assert (E : fst (WellResponse._calc_depletion w) = Raise ValueError).
  { unfold WellResponse._calc_depletion.
    unfold bind at 1. unfold get at 1.
    unfold bind at 1. unfold lift at 1. rewrite Hm.
    unfold bind at 1. unfold modify at 1.
    unfold bind at 1. unfold modify at 1.
    unfold bind at 1. unfold lift at 1.
    fold N.
    rewrite (image0_array (N := N) (k := WellResponse.depl_pump_time w))
      by lia.
    unfold bind at 1. unfold modify at 1.
    unfold bind at 1.
    match goal with
    | |- context [for_ ?ys ?body ?s] =>
        pose proof (@years_loop_overflow N (WellResponse.depl_pump_time w)
                      ys) as Hl;
        specialize (Hl ltac:(unfold N; lia));
        assert (Hf : fst (for_ ys body s) = Raise ValueError)
    end.
    { apply Hl.
      - intros y Hin. apply in_arange in Hin. unfold N. lia.
      - exists (WellResponse.depletion_years w - 1). split.
        + apply in_arange. lia.
        + unfold N. lia. }
    destruct (for_ _ _ _) as [[u|e] w1]; simpl in Hf; [discriminate|].
    simpl. congruence. }
  split; [exact E|]. intros Hn. now apply depletion_failed.
Qed.

(** X3.  With a method of the registry, at least one year and a pumping
    offset between 0 and 365 days, a response whose apportionment was left
    at [None] raises [TypeError] at the first evaluation, after the arrays
    of all years were built and left on the object. *)
Theorem missing_apportionment_raises (w : WellResponse.t)
    (depl_f : depl_fn) :
  getitem ALL_DEPL_METHODS (lower (WellResponse.depl_method w)) = Ok depl_f ->
  WellResponse.stream_apportionment w = None ->
  1 <= WellResponse.depletion_years w ->
  0 <= WellResponse.depl_pump_time w <= 365 ->
  fst (WellResponse._calc_depletion w) = Raise TypeError /\
  (exists bys iys,
     WellResponse.baseyears (snd (WellResponse._calc_depletion w))
     = Some bys /\
     WellResponse.imageyears (snd (WellResponse._calc_depletion w))
     = Some iys /\
     len bys = WellResponse.depletion_years w /\
     len iys = WellResponse.depletion_years w) /\
  (WellResponse._depletion w = None ->
   fst (WellResponse.depletion w) = Raise TypeError /\
   WellResponse._depletion (snd (WellResponse.depletion w)) = None).
Proof.
  intros Hm Ha Hy Hp.
  assert (E : fst (WellResponse._calc_depletion w) = Raise TypeError).
  { rewrite (calc_depletion_series w Hm Hy Hp). cbn [fst].
    rewrite (range_cons (a := 0)) by lia. simpl map. simpl combine.
    simpl WellResponse.accumulate. unfold WellResponse.scaled_Q.
    replace (WellResponse.stream_apportionment (with_years _ _ w))
      with (@None R) by (symmetry; exact Ha).
    reflexivity. }
  split; [exact E|]. split.
  - rewrite (calc_depletion_series w Hm Hy Hp). cbn [snd].
    eexists. eexists. split; [reflexivity|]. split; [reflexivity|].
    split; unfold len; rewrite length_map, range_length; lia.
  - intros Hn. now apply depletion_failed.
Qed.

End SeriesEntries.

(** ** Further properties of the response functions *)

Section WaltonMore.
Context {sps : Special}.
Local Open Scope R_scope.

(** The polynomial under the 16th power. *)
Lemma walton_base_ge_1 (G : R) :
  0 <= G ->
  1 <= walton_I_spec G + 1.52014e-4 * G ^ 4 + 2.76567e-4 * G ^ 5
       + 4.30638e-5 * G ^ 6.
Proof.
  intros HG. unfold walton_I_spec.
  assert (H2 := pow_le G 2 HG). assert (H3 := pow_le G 3 HG).
  assert (H4 := pow_le G 4 HG). assert (H5 := pow_le G 5 HG).
  assert (H6 := pow_le G 6 HG).
  lra.
Qed.

Lemma walton_J_incr (G1 G2 : R) :
  0 <= G1 <= G2 -> walton_J_spec G1 <= walton_J_spec G2.
Proof.
  intros H. unfold walton_J_spec. apply pow_incr. split.
  - assert (H1 := walton_base_ge_1 (proj1 H)). lra.
  - unfold walton_I_spec.
    assert (H2 := pow_incr G1 G2 2 H). assert (H3 := pow_incr G1 G2 3 H).
    assert (H4 := pow_incr G1 G2 4 H). assert (H5 := pow_incr G1 G2 5 H).
    assert (H6 := pow_incr G1 G2 6 H).
    lra.
Qed.

Lemma walton_spec_decr_in_G (Q G1 G2 : R) :
  0 <= Q -> 0 <= G1 <= G2 ->
  Q * (1 / walton_J_spec G2) / 86400 <= Q * (1 / walton_J_spec G1) / 86400.
Proof.
  intros HQ H.
  assert (J1 := walton_J_ge_1 (proj1 H)).
  assert (J2 : 1 <= walton_J_spec G2)
    by (apply walton_J_ge_1; lra).
  assert (HJ := walton_J_incr H).
  assert (Hinv : / walton_J_spec G2 <= / walton_J_spec G1)
    by (apply Rinv_le_contravar; lra).
  unfold Rdiv. rewrite !Rmult_1_l.
  apply Rmult_le_compat_r; [lra|].
  now apply Rmult_le_compat_l.
Qed.

Lemma walton_nonpositive_dist (T S dist Q : R) (time : ndval) :
  dist <= 0 -> _walton T S dist time Q = Scalar (Q / 86400).
Proof.
  intros H. unfold _walton.
  destruct (Rlt_dec 0 dist) as [H'|_]; [lra|].
  simpl. rewrite walton_J_eq, walton_J_spec_0. f_equal. lra.
Qed.

(** X4.  For a distance that is not positive [_walton] ignores the time:
    whatever the shape of [time], it returns the scalar [Q / 86400]. *)
Theorem walton_without_distance (T S dist Q : R) (time : ndval) :
  dist <= 0 -> _walton T S dist time Q = Scalar (Q / 86400).
Proof.
  intros H. destruct time as [t|ts].
  - now apply walton_nonpositive_dist.
  - now apply walton_nonpositive_dist.
Qed.

(** X5.  For positive [T], [S] and [time] and a pumping rate [Q >= 0], the
    value of [_walton] lies between 0 and [Q / 86400]. *)
Theorem walton_bounds (T S dist time Q : R) :
  0 < T -> 0 < S -> 0 < time -> 0 <= Q ->
  exists v, _walton T S dist (Scalar time) Q = Scalar v /\
            0 <= v <= Q / 86400.
Proof.
  intros HT HS Ht HQ. rewrite walton_scalar. eexists. split; [reflexivity|].
  destruct (walton_G_nonneg dist HT HS Ht) as [_ HG].
  assert (HJ := walton_J_ge_1 HG). unfold walton_spec.
  set (J := walton_J_spec (walton_G_spec T S dist time)) in *.
  assert (Hinv : 0 < / J <= 1).
  { split; [apply Rinv_0_lt_compat; lra|].
    rewrite <- Rinv_1. apply Rinv_le_contravar; lra. }
  unfold Rdiv. rewrite Rmult_1_l. split.
  - apply Rmult_le_pos; [|lra]. apply Rmult_le_pos; lra.
  - apply Rmult_le_compat_r; [lra|].
    rewrite <- (Rmult_1_r Q) at 2. apply Rmult_le_compat_l; lra.
Qed.

(** X6.  For positive [T] and [S] and [Q >= 0], the value of [_walton] does
    not decrease with time. *)
Theorem walton_monotone_in_time (T S dist t1 t2 Q : R) :
  0 < T -> 0 < S -> 0 <= Q -> 0 < t1 <= t2 ->
  exists v1 v2,
    _walton T S dist (Scalar t1) Q = Scalar v1 /\
    _walton T S dist (Scalar t2) Q = Scalar v2 /\
    v1 <= v2.
Proof.
  intros HT HS HQ Ht. rewrite !walton_scalar.
  eexists. eexists. split; [reflexivity|]. split; [reflexivity|].
  unfold walton_spec. apply walton_spec_decr_in_G; [assumption|].
  destruct (@walton_G_nonneg T S dist t1 HT HS) as [X1 G1]; [lra|].
  destruct (@walton_G_nonneg T S dist t2 HT HS) as [X2 G2]; [lra|].
  split; [assumption|].
  unfold walton_G_spec in *. destruct (Rlt_dec 0 dist) as [Hd|_]; [|lra].
  assert (Hx : 0.535 * t1 * T / S <= 0.535 * t2 * T / S).
  { unfold Rdiv. apply Rmult_le_compat_r; [left; now apply Rinv_0_lt_compat|].
    apply Rmult_le_compat_r; [lra|]. lra. }
  assert (Hs := sqrt_le_1_alt _ _ Hx).
  assert (Hs1 := sqrt_lt_R0 _ X1).
  unfold Rdiv. apply Rmult_le_compat_l; [lra|].
  apply Rinv_le_contravar; assumption.
Qed.

(** X7.  For positive [T], [S] and [time] and [Q >= 0], the value of
    [_walton] does not increase with the distance, over all distances. *)
Theorem walton_monotone_in_distance (T S d1 d2 time Q : R) :
  0 < T -> 0 < S -> 0 < time -> 0 <= Q -> d1 <= d2 ->
  exists v1 v2,
    _walton T S d1 (Scalar time) Q = Scalar v1 /\
    _walton T S d2 (Scalar time) Q = Scalar v2 /\
    v2 <= v1.
Proof.
  intros HT HS Ht HQ Hd. rewrite !walton_scalar.
  eexists. eexists. split; [reflexivity|]. split; [reflexivity|].
  unfold walton_spec. apply walton_spec_decr_in_G; [assumption|].
  destruct (@walton_G_nonneg T S d1 time HT HS Ht) as [X G1].
  destruct (@walton_G_nonneg T S d2 time HT HS Ht) as [_ G2].
  split; [assumption|].
  unfold walton_G_spec in *.
  assert (Hs := sqrt_lt_R0 _ X).
  destruct (Rlt_dec 0 d1) as [H1|H1], (Rlt_dec 0 d2) as [H2|H2]; try lra.
  unfold Rdiv. apply Rmult_le_compat_r; [|assumption].
  left. now apply Rinv_0_lt_compat.
Qed.

End WaltonMore.

Section TheisMore.
Context {sps : Special}.
Local Open Scope R_scope.

(** X8.  Given a list or array of times and one of distances whose lengths
    differ and are both other than 1, [_theis] and [_glover] raise
    [ValueError]. *)
Theorem mismatched_arrays_raise (T S Q : R) (time dist : pyarg)
    (ts ds : list R) :
  list_to_array time = Arr ts -> list_to_array dist = Arr ds ->
  length ts <> length ds -> length ts <> 1%nat -> length ds <> 1%nat ->
  _theis T S time dist Q = Raise ValueError /\
  _glover T S (Arr ts) (Arr ds) Q = Raise ValueError.
Proof.
  intros Et Ed L L1 L2. unfold _theis, _glover. rewrite Et, Ed. simpl.
  rewrite !length_map.
  destruct (Nat.eqb_spec (length ds) (length ts)) as [E|_];
    [congruence|].
  destruct ds as [|d [|d' ds]], ts as [|t [|t' ts]]; simpl in *;
    try congruence; auto.
Qed.


End TheisMore.

Lemma walton_without_distance_witness :
  _walton 1000 0.2 0 (Arr [1; 2; 3]%R) 50000 = Scalar (50000 / 86400)%R.
Proof. apply walton_without_distance. lra. Defined.

Lemma walton_bounds_witness :
  exists v, _walton 1000 0.2 300 (Scalar 10) 50000 = Scalar v /\
            (0 <= v <= 50000 / 86400)%R.
Proof. apply walton_bounds; lra. Defined.

Lemma walton_monotone_in_time_witness :
  exists v1 v2,
    _walton 1000 0.2 300 (Scalar 10) 50000 = Scalar v1 /\
    _walton 1000 0.2 300 (Scalar 20) 50000 = Scalar v2 /\
    (v1 <= v2)%R.
Proof. apply walton_monotone_in_time; lra. Defined.

Lemma walton_monotone_in_distance_witness :
  exists v1 v2,
    _walton 1000 0.2 (-5) (Scalar 10) 50000 = Scalar v1 /\
    _walton 1000 0.2 300 (Scalar 10) 50000 = Scalar v2 /\
    (v2 <= v1)%R.
Proof. apply walton_monotone_in_distance; lra. Defined.

Lemma mismatched_arrays_raise_witness :
  _theis (sps := sps_example) 1000 0.2 (PyList [1; 2; 3]%R)
    (PyArray [100; 200]%R) 50000
  = Raise ValueError.
Proof.
  apply (@mismatched_arrays_raise sps_example 1000 0.2 50000
           (PyList [1; 2; 3]%R) (PyArray [100; 200]%R) [1; 2; 3]%R
           [100; 200]%R); simpl; (reflexivity || discriminate).
Defined.


Section WaltonOnTheStream.
Context {sps : Special}.
Local Open Scope Z_scope.

(** A method that returns one value for every series gives one sum for any
    two lists of as many series. *)
Lemma sum_evals_constant (call : list Z -> result ndval) (r : result ndval) :
  (forall s, call s = r) ->
  forall (ss1 ss2 : list (list Z)) (acc : list R),
    length ss1 = length ss2 ->
    sum_evals call ss1 acc = sum_evals call ss2 acc.
Proof.
  intros Hc. induction ss1 as [|s1 ss1 IH]; intros [|s2 ss2] acc L;
    simpl in L; try discriminate; [reflexivity|].
  simpl. rewrite !Hc. destruct r as [v|e]; simpl; [|reflexivity].
  destruct (iadd acc v) as [acc'|e]; simpl; [|reflexivity].
  apply IH. congruence.
Qed.

(** X10.  For the method ['walton'] and a distance that is not positive,
    with a numeric apportionment, at least one year and a pumping offset
    between 0 and 365 days, the depletion series is zero at every day. *)
Theorem walton_on_the_stream_cancels (w : WellResponse.t) (a : R) :
  lower (WellResponse.depl_method w) = "walton"%string ->
  WellResponse.stream_apportionment w = Some a ->
  1 <= WellResponse.depletion_years w ->
  0 <= WellResponse.depl_pump_time w <= 365 ->
  (WellResponse.dist w <= 0)%R ->
  fst (WellResponse._calc_depletion w)
  = Ok (repeat 0%R (Z.to_nat (365 * WellResponse.depletion_years w))).
Proof.
  intros Hl Ha Hy Hp Hd.
  assert (Hm : getitem ALL_DEPL_METHODS (lower (WellResponse.depl_method w))
               = Ok (fun T S a3 a4 Q => Ok (_walton T S a3 a4 Q)))
    by (rewrite Hl; reflexivity).
  destruct (calc_depletion_run w Hm Ha Hy Hp)
    as (depl & rech & Ed & Er & Ld & _ & E).
  rewrite E. cbn [fst].
  rewrite (@sum_evals_constant _
             (Ok (Scalar (WellResponse.Q w * a / 86400)%R))) with (ss2 := 
             map (fun y => shifted (365 * WellResponse.depletion_years w)
                             (365 * y + WellResponse.depl_pump_time w))
               (range 0 (WellResponse.depletion_years w))) in Ed.
  - rewrite Ed in Er. injection Er as <-.
    now rewrite map2_minus_self, Ld.
  - intros s. now rewrite walton_nonpositive_dist.
  - now rewrite !length_map.
Qed.

End WaltonOnTheStream.

(** ** Further properties of [Well] *)

Section WellMore.
Context {sps : Special}.
Local Open Scope Z_scope.

Lemma dict_set_keys {V : Type} (k k' : string) (v : V) (d : dict V) :
  In k (keys (dict_set k' v d)) <-> k = k' \/ In k (keys d).
Proof.
  induction d as [|[k0 v0] d IH]; simpl.
  - intuition.
  - destruct (String.eqb_spec k0 k') as [->|N]; simpl.
    + intuition.
    + rewrite IH. intuition.
Qed.

Lemma dict_set_Forall {V : Type} (P : string * V -> Prop) (k : string)
    (v : V) (d : dict V) :
  Forall P d -> P (k, v) -> Forall P (dict_set k v d).
Proof.
  intros Hd Hp. induction d as [|[k0 v0] d IH]; simpl.
  - now constructor.
  - inversion Hd as [|? ? H0 Hr]; subst.
    destruct (String.eqb_spec k0 k) as [->|N]; constructor; auto.
Qed.

(** The loop of a property of [Well] over responses that all return a
    value: no exception, every response keeps what its property stored, and
    the mapping gains exactly the names of the responses. *)
Lemma collect_ok {V : Type} (prop : M WellResponse.t V)
    (P : string * V -> Prop) (rs : list (Z * WellResponse.t)) :
  (forall p, In p rs ->
     exists v, fst (prop (snd p)) = Ok v /\
       WellResponse.name (snd (prop (snd p))) = WellResponse.name (snd p) /\
       P (WellResponse.name (snd p), v)) ->
  forall d, Forall P d ->
    exists d',
      Well.collect prop rs d
      = (None, map (fun p => (fst p, snd (prop (snd p)))) rs, d') /\
      Forall P d' /\
      (forall k, In k (keys d') <->
                 In k (keys d) \/
                 In k (map (fun p => WellResponse.name (snd p)) rs)).
Proof.
  induction rs as [|[c r] rs IH]; intros Hrs d Hd.
  - exists d. simpl. repeat split; auto. intuition.
  - destruct (Hrs (c, r) (or_introl eq_refl)) as (v & Ev & En & Hp).
    simpl in Ev, En, Hp. simpl Well.collect.
    destruct (prop r) as [[v'|e] r'] eqn:Er; simpl in Ev; [|discriminate].
    injection Ev as ->. simpl in En.
    destruct (IH (fun p Hin => Hrs p (or_intror Hin))
                (dict_set (WellResponse.name r') v d)) as (d' & Ec & Fd & Hk).
    { apply dict_set_Forall; [assumption|]. now rewrite En. }
    rewrite Ec. exists d'. split; [simpl; now rewrite Er|].
    split; [assumption|].
    intros k. rewrite Hk, dict_set_keys, En. simpl. intuition.
Qed.

(** What a successful construction returns. *)
Lemma well_init_inv (well_loc : option (R * R)) (well_status : string)
    (T S Q : R) (depletion_years : Z) (theis_dd_time : pyarg)
    (depl_pump_time : Z) (stream_dist drawdown_dist : option (dict R))
    (stream_locs drawdown_locs : option (dict (R * R)))
    (stream_apportionment : option (dict R)) (well : Well.t) :
  Well.init well_loc well_status T S Q depletion_years theis_dd_time
    depl_pump_time stream_dist drawdown_dist stream_locs drawdown_locs
    stream_apportionment = Ok well ->
  exists sd sa dd srs,
    stream_dist = Some sd /\ stream_apportionment = Some sa /\
    drawdown_dist = Some dd /\ incl (keys sd) (keys sa) /\
    Well.make_stream_responses T S Q depl_pump_time sa 0 sd = Ok srs /\
    Well.stream_responses well = srs /\
    Well.drawdown_responses well
    = Well.make_drawdown_responses T S Q theis_dd_time depletion_years 0 dd /\
    Well._depletion well = None /\ Well._drawdown well = None /\
    Well.stream_response_names well = [] /\
    Well.drawdown_response_names well = keys dd.
Proof.
  unfold Well.init.
  destruct stream_dist as [sd|]; cbn; [|discriminate].
  destruct stream_apportionment as [sa|]; cbn; [|discriminate].
  destruct (length (set_diff (keys sd) (keys sa)) =? 0)%nat eqn:E; cbn;
    [|discriminate].
  destruct drawdown_dist as [dd|]; cbn; [|discriminate].
  destruct (Well.make_stream_responses T S Q depl_pump_time sa 0 sd)
    as [srs|] eqn:Es; cbn; [|discriminate].
  intros E'. injection E' as <-. cbn.
  exists sd, sa, dd, srs. repeat split; auto.
  now apply set_diff_empty, Nat.eqb_eq.
Qed.

(** X11.  The constructor of [Well] raises [AttributeError] exactly when
    the stream distances or the apportionment are [None], or every stream
    has an apportionment and the drawdown distances are [None]; it raises
    no other exception than this one and [AssertionError], so that the two
    [raise] statements for locations are never reached. *)
Theorem well_init_errors (well_loc : option (R * R)) (well_status : string)
    (T S Q : R) (depletion_years : Z) (theis_dd_time : pyarg)
    (depl_pump_time : Z) (stream_dist drawdown_dist : option (dict R))
    (stream_locs drawdown_locs : option (dict (R * R)))
    (stream_apportionment : option (dict R)) :
  let r := Well.init well_loc well_status T S Q depletion_years
             theis_dd_time depl_pump_time stream_dist drawdown_dist
             stream_locs drawdown_locs stream_apportionment in
  (r = Raise AttributeError <->
   stream_dist = None \/ stream_apportionment = None \/
   (drawdown_dist = None /\
    exists sd sa, stream_dist = Some sd /\ stream_apportionment = Some sa /\
                  incl (keys sd) (keys sa))) /\
  (forall e, r = Raise e -> e = AttributeError \/ e = AssertionError).
Proof.
  intros r. subst r. unfold Well.init.
  destruct stream_dist as [sd|]; cbn.
  2:{ split; [split; auto | intros e E; injection E as <-; auto]. }
  destruct stream_apportionment as [sa|]; cbn.
  2:{ split; [split; auto | intros e E; injection E as <-; auto]. }
  destruct (length (set_diff (keys sd) (keys sa)) =? 0)%nat eqn:E; cbn.
  - apply Nat.eqb_eq, set_diff_empty in E.
    destruct drawdown_dist as [dd|]; cbn.
    + destruct (@make_stream_responses_ok T S Q depl_pump_time sa sd E 0)
        as [srs [Es _]].
      rewrite Es. cbn. split.
      * split; [discriminate|].
        intros [H|[H|[H _]]]; discriminate.
      * intros e H. discriminate.
    + split.
      * split; auto. intros _. right. right. split; auto.
        now exists sd, sa.
      * intros e H. injection H as <-. auto.
  - split.
    + split; [discriminate|].
      intros [H|[H|[_ (sd' & sa' & H1 & H2 & Hin)]]]; try discriminate.
      injection H1 as <-. injection H2 as <-.
      apply set_diff_empty in Hin. apply Nat.eqb_neq in E. contradiction.
    + intros e H. injection H as <-. auto.
Qed.

End WellMore.

Section WellResults.
Context {sps : Special}.
Local Open Scope Z_scope.

Lemma arange_cons (a n : Z) :
  0 <= n -> arange a (a + (n + 1)) = a :: arange (a + 1) (a + 1 + n).
Proof.
  intros H. change (arange a (a + (n + 1))) with (range a (a + (n + 1))).
  rewrite range_cons by lia. unfold range. do 2 f_equal. lia.
Qed.

(** The stream loop numbers the responses from [cs + 1] on and names them
    after the streams, in the order of the mapping. *)
Lemma make_stream_responses_layout (T S Q : R) (dpt : Z) (sa : dict R)
    (items : dict R) :
  forall cs srs,
    Well.make_stream_responses T S Q dpt sa cs items = Ok srs ->
    map fst srs = arange (cs + 1) (cs + 1 + len items) /\
    map (fun p => WellResponse.name (snd p)) srs = keys items.
Proof.
  induction items as [|[cname cdist] items IH]; intros cs srs; simpl.
  - intros E. injection E as <-. split; [|reflexivity].
    unfold arange, len. simpl. now replace (cs + 1 + 0 - (cs + 1)) with 0 by lia.
  - destruct (getitem sa cname) as [a|]; simpl; [|discriminate].
    destruct (Well.make_stream_responses T S Q dpt sa (cs + 1) items)
      as [rest|] eqn:E; simpl; [|discriminate].
    intros E'. injection E' as <-. destruct (IH _ _ E) as [H1 H2].
    simpl. rewrite H1, H2. split; [|reflexivity].
    unfold len. simpl length.
    replace (Z.of_nat (Datatypes.S (length items)))
      with (Z.of_nat (length items) + 1) by lia.
    now rewrite arange_cons by lia.
Qed.

Lemma make_drawdown_responses_layout (T S Q : R) (time : pyarg) (years : Z)
    (items : dict R) :
  forall cw,
    let drs := Well.make_drawdown_responses T S Q time years cw items in
    map fst drs = arange (cw + 1) (cw + 1 + len items) /\
    map (fun p => WellResponse.name (snd p)) drs = keys items /\
    forall p, In p drs ->
      exists cname cdist,
        In (cname, cdist) items /\
        snd p = WellResponse.init cname "well" T S cdist Q None "theis"
                  WellResponse.default_depl_method time
                  WellResponse.default_depl_pump_time years.
Proof.
  induction items as [|[cname cdist] items IH]; intros cw; simpl.
  - split; [|split; [reflexivity | intros p []]].
    unfold arange, len. simpl. now replace (cw + 1 + 0 - (cw + 1)) with 0 by lia.
  - destruct (IH (cw + 1)) as (H1 & H2 & H3).
    split; [|split].
    + rewrite H1. unfold len. simpl length.
      replace (Z.of_nat (Datatypes.S (length items)))
        with (Z.of_nat (length items) + 1) by lia.
      now rewrite arange_cons by lia.
    + now rewrite H2.
    + intros p [<-|Hin].
      * exists cname, cdist. split; [now left | reflexivity].
      * destruct (H3 p Hin) as (n & d & Hi & E).
        exists n, d. split; [now right | assumption].
Qed.

(** X12.  A constructed well holds one stream response per stream and one
    drawdown response per observation point, keyed 1, 2, ... in the order of
    the two mappings and named after their keys; its list
    [stream_response_names] is empty whatever the streams are, and
    [drawdown_response_names] lists the keys of the drawdown distances. *)
Theorem well_init_layout (well_loc : option (R * R)) (well_status : string)
    (T S Q : R) (depletion_years : Z) (theis_dd_time : pyarg)
    (depl_pump_time : Z) (sd dd : dict R)
    (stream_locs drawdown_locs : option (dict (R * R))) (sa : dict R)
    (well : Well.t) :
  Well.init well_loc well_status T S Q depletion_years theis_dd_time
    depl_pump_time (Some sd) (Some dd) stream_locs drawdown_locs (Some sa)
  = Ok well ->
  map fst (Well.stream_responses well) = arange 1 (len sd + 1) /\
  map (fun p => WellResponse.name (snd p)) (Well.stream_responses well)
  = keys sd /\
  map fst (Well.drawdown_responses well) = arange 1 (len dd + 1) /\
  map (fun p => WellResponse.name (snd p)) (Well.drawdown_responses well)
  = keys dd /\
  Well.stream_response_names well = [] /\
  Well.drawdown_response_names well = keys dd.
Proof.
  intros H. apply well_init_inv in H.
  destruct H as (sd' & sa' & dd' & srs & E1 & E2 & E3 & _ & Es & Hs & Hd
                 & _ & _ & Hn & Hdn).
  injection E1 as <-. injection E2 as <-. injection E3 as <-.
  apply make_stream_responses_layout in Es. destruct Es as [Es1 Es2].
  destruct (make_drawdown_responses_layout T S Q theis_dd_time
              depletion_years dd 0) as (Hd1 & Hd2 & _).
  rewrite Hs, Hd.
  replace (len sd + 1) with (0 + 1 + len sd) by lia.
  replace (len dd + 1) with (0 + 1 + len dd) by lia.
  repeat split; assumption.
Qed.

Lemma theis_scalar_dist (T S Q d : R) (time : pyarg) :
  T <> 0%R -> all_positive (list_to_array time) ->
  _theis T S time (PyFloat d) Q
  = Ok (nd_map (fun t => theis_spec T S t d Q) (list_to_array time)).
Proof.
  intros HT Hpos.
  assert (H4 : (4 * PI * T <> 0)%R).
  { assert (Hpi := PI_RGT_0).
    apply Rmult_integral_contrapositive_currified; [|assumption].
    apply Rmult_integral_contrapositive_currified; lra. }
  unfold _theis.
  destruct (Req_EM_T (4 * PI * T) 0) as [C|_]; [contradiction|].
  destruct (list_to_array time) as [t|ts]; simpl in Hpos;
    cbn [list_to_array nd_map truediv].
  - destruct (Req_EM_T (4 * T * t) 0) as [C|_]; [|reflexivity].
    exfalso. revert C.
    apply Rmult_integral_contrapositive_currified; [|lra].
    apply Rmult_integral_contrapositive_currified; [lra | assumption].
  - simpl. now rewrite !map_map.
Qed.

(** X13.  With [T] not zero and a positive time (or list or array of
    positive times) [theis_dd_time], the first access to [drawdown] of a
    constructed well raises nothing: it returns and stores a mapping whose
    names are those of the drawdown distances, each value being the Theis
    drawdown at one of the distances given for its name, at the time (or,
    elementwise, the times) [theis_dd_time]; every drawdown response has
    then stored a value of its own. *)
Theorem well_drawdown_values (well_loc : option (R * R))
    (well_status : string) (T S Q : R) (depletion_years : Z)
    (theis_dd_time : pyarg) (depl_pump_time : Z) (sd dd : dict R)
    (stream_locs drawdown_locs : option (dict (R * R))) (sa : dict R)
    (well : Well.t) :
  Well.init well_loc well_status T S Q depletion_years theis_dd_time
    depl_pump_time (Some sd) (Some dd) stream_locs drawdown_locs (Some sa)
  = Ok well ->
  T <> 0%R -> all_positive (list_to_array theis_dd_time) ->
  exists d,
    fst (Well.drawdown well) = Ok d /\
    Well._drawdown (snd (Well.drawdown well)) = Some d /\
    (forall k, In k (keys d) <-> In k (keys dd)) /\
    Forall (fun kv =>
              exists cdist,
                In (fst kv, cdist) dd /\
                snd kv = nd_map (fun t => theis_spec T S t cdist Q)
                           (list_to_array theis_dd_time)) d /\
    Forall (fun p => WellResponse._drawdown (snd p) <> None)
      (Well.drawdown_responses (snd (Well.drawdown well))).
Proof.
  intros H HT Hpos. apply well_init_inv in H.
  destruct H as (sd' & sa' & dd' & srs & E1 & E2 & E3 & _ & _ & _ & Hd
                 & _ & Hn & _ & _).
  injection E3 as <-.
  destruct (make_drawdown_responses_layout T S Q theis_dd_time
              depletion_years dd 0) as (_ & Hnames & Hresp).
  set (P := fun kv : string * ndval =>
              exists cdist,
                In (fst kv, cdist) dd /\
                snd kv = nd_map (fun t => theis_spec T S t cdist Q)
                           (list_to_array theis_dd_time)).
  assert (Hprop : forall r cname cdist,
            r = WellResponse.init cname "well" T S cdist Q None "theis"
                  WellResponse.default_depl_method theis_dd_time
                  WellResponse.default_depl_pump_time depletion_years ->
            WellResponse.drawdown r
            = (Ok (nd_map (fun t => theis_spec T S t cdist Q)
                     (list_to_array theis_dd_time)),
               WellResponse.set__drawdown
                 (Some (nd_map (fun t => theis_spec T S t cdist Q)
                          (list_to_array theis_dd_time))) r)).
  { intros r cname cdist ->. rewrite drawdown_first by reflexivity.
    match goal with
    | |- context [WellResponse._calc_drawdown ?r] =>
        replace (WellResponse._calc_drawdown r)
          with (_theis T S theis_dd_time (PyFloat cdist) Q) by reflexivity
    end.
    now rewrite theis_scalar_dist by assumption. }
  destruct (@collect_ok ndval WellResponse.drawdown P
              (Well.drawdown_responses well)) with (d := @nil (string * ndval))
    as (d & Ec & Fd & Hk).
  { rewrite Hd. intros p Hin. destruct (Hresp p Hin) as (n & c & Hi & E).
    rewrite (Hprop _ n c E). cbn [fst snd].
    eexists. split; [reflexivity|]. split; [reflexivity|].
    exists c. rewrite E. cbn. split; [assumption | reflexivity]. }
  { constructor. }
  exists d. unfold Well.drawdown. rewrite Hn, Ec. unfold Well.finish.
  cbn [fst snd Well._drawdown Well.set__drawdown Well.drawdown_responses].
  split; [reflexivity|]. split; [reflexivity|]. split; [|split].
  - intros k. rewrite Hk, Hd, Hnames. simpl. intuition.
  - exact Fd.
  - rewrite Forall_map. rewrite Hd. apply Forall_forall. intros p Hin.
    destruct (Hresp p Hin) as (n & c & _ & E).
    cbn [snd]. rewrite (Hprop _ n c E). cbn. discriminate.
Qed.

(** X14.  With a pumping offset between 0 and 365 days, the first access to
    [depletion] of a constructed well raises nothing: it returns and stores
    a mapping whose names are those of the stream distances, and each of
    its arrays has 1825 entries (five years), whatever the [depletion_years]
    of the well is; every stream response has then stored an array of its
    own of that length. *)
Theorem well_depletion_arrays (well_loc : option (R * R))
    (well_status : string) (T S Q : R) (depletion_years : Z)
    (theis_dd_time : pyarg) (depl_pump_time : Z) (sd dd : dict R)
    (stream_locs drawdown_locs : option (dict (R * R))) (sa : dict R)
    (well : Well.t) :
  Well.init well_loc well_status T S Q depletion_years theis_dd_time
    depl_pump_time (Some sd) (Some dd) stream_locs drawdown_locs (Some sa)
  = Ok well ->
  0 <= depl_pump_time <= 365 ->
  exists d,
    fst (Well.depletion well) = Ok d /\
    Well._depletion (snd (Well.depletion well)) = Some d /\
    (forall k, In k (keys d) <-> In k (keys sd)) /\
    Forall (fun kv => len (snd kv) = 1825) d /\
    Forall (fun p => exists v, WellResponse._depletion (snd p) = Some v /\
                               len v = 1825)
      (Well.stream_responses (snd (Well.depletion well))).
Proof.
  intros H Hp. pose proof (well_init_streams _ _ _ _ _ _ _ _ _ _ _ _ _ H) as Hok.
  apply well_init_inv in H.
  destruct H as (sd' & sa' & dd' & srs & E1 & E2 & E3 & _ & Es & Hs & _
                 & Hn & _ & _ & _).
  injection E1 as <-.
  apply make_stream_responses_layout in Es. destruct Es as [_ Hnames].
  rewrite <- Hs in Hnames. rewrite Forall_forall in Hok.
  assert (Hprop : forall p, In p (Well.stream_responses well) ->
            exists v, len v = 1825 /\
              WellResponse.depletion (snd p)
              = (Ok v, WellResponse.set__depletion (Some v)
                         (snd (WellResponse._calc_depletion (snd p)))) /\
              WellResponse.name (snd (WellResponse._calc_depletion (snd p)))
              = WellResponse.name (snd p)).
  { intros p Hin. destruct (Hok p Hin) as (Hk & Hy & Hm & Hnone & _ & a & Ha).
    destruct walton_registered as [depl_f Hf]. rewrite <- Hm in Hf.
    destruct (calc_depletion_run (snd p) Hf Ha) as
      (depl & rech & _ & _ & Ld & Lr & E); [lia | lia |].
    exists (map2 Rminus depl rech). split.
    - unfold len. rewrite map2_length by congruence. rewrite Ld, Hy.
      reflexivity.
    - rewrite (depletion_first _ Hnone), E. split; reflexivity. }
  destruct (@collect_ok (list R) WellResponse.depletion
              (fun kv => len (snd kv) = 1825)
              (Well.stream_responses well)) with (d := @nil (string * list R))
    as (d & Ec & Fd & Hk).
  { intros p Hin. destruct (Hprop p Hin) as (v & Lv & E & En).
    rewrite E. cbn [fst snd]. exists v. split; [reflexivity|].
    split; [exact En | exact Lv]. }
  { constructor. }
  exists d. unfold Well.depletion. rewrite Hn, Ec. unfold Well.finish.
  cbn [fst snd Well._depletion Well.set__depletion Well.stream_responses].
  split; [reflexivity|]. split; [reflexivity|]. split; [|split].
  - intros k. rewrite Hk, Hnames. simpl. intuition.
  - exact Fd.
  - rewrite Forall_map. apply Forall_forall. intros p Hin.
    destruct (Hprop p Hin) as (v & Lv & E & _).
    cbn [snd]. rewrite E. cbn. now exists v.
Qed.

(** X15.  When a well constructed with at least one stream and a negative
    pumping offset is asked for [depletion], the access raises [ValueError],
    yet the slot of the well is left filled with the empty mapping: the next
    access raises nothing and returns the empty mapping. *)
Theorem well_depletion_failure_is_cached (well_loc : option (R * R))
    (well_status : string) (T S Q : R) (depletion_years : Z)
    (theis_dd_time : pyarg) (depl_pump_time : Z) (sd dd : dict R)
    (stream_locs drawdown_locs : option (dict (R * R))) (sa : dict R)
    (well : Well.t) :
  Well.init well_loc well_status T S Q depletion_years theis_dd_time
    depl_pump_time (Some sd) (Some dd) stream_locs drawdown_locs (Some sa)
  = Ok well ->
  sd <> [] -> depl_pump_time < 0 ->
  let well' := snd (Well.depletion well) in
  fst (Well.depletion well) = Raise ValueError /\
  Well._depletion well' = Some [] /\
  Well.depletion well' = (Ok [], well').
Proof.
  intros H Hsd Hp well'. subst well'.
  pose proof (well_init_streams _ _ _ _ _ _ _ _ _ _ _ _ _ H) as Hok.
  apply well_init_inv in H.
  destruct H as (sd' & sa' & dd' & srs & E1 & E2 & E3 & _ & Es & Hs & _
                 & Hn & _ & _ & _).
  injection E1 as <-.
  apply make_stream_responses_layout in Es. destruct Es as [_ Hnames].
  rewrite <- Hs in Hnames.
  destruct (Well.stream_responses well) as [|[c r] rest] eqn:Er.
  { destruct sd; [contradiction | discriminate]. }
  inversion Hok as [|? ? Hr _]; subst.
  destruct Hr as (Hk & Hy & Hm & Hnone & _ & _). cbn [snd] in *.
  destruct walton_registered as [depl_f Hf]. rewrite <- Hm in Hf.
  destruct (@depletion_failed sps r ValueError Hnone) as [Hfail _].
  { rewrite (calc_depletion_negative r Hf); [reflexivity | lia | lia]. }
  assert (Ew : Well.depletion well
               = (Raise ValueError,
                  Well.set__depletion (Some [])
                    ((c, snd (WellResponse.depletion r)) :: rest) well)).
  { unfold Well.depletion. rewrite Hn, Er. cbn [Well.collect].
    destruct (WellResponse.depletion r) as [[v|e] r'];
      cbn [fst] in Hfail; [discriminate|].
    injection Hfail as ->. reflexivity. }
  rewrite Ew. cbn [fst snd]. split; [reflexivity|].
  split; [reflexivity|]. now apply well_depletion_cached.
Qed.

End WellResults.

Section WrongRoles.
Context {sps : Special}.
Local Open Scope Z_scope.



(** X17.  A drawdown response of a well constructed with at least one year
    is built with the default pumping offset -99999: an access to its
    [depletion] raises [ValueError] and leaves its slot unset. *)
Theorem drawdown_response_has_no_depletion (well_loc : option (R * R))
    (well_status : string) (T S Q : R) (depletion_years : Z)
    (theis_dd_time : pyarg) (depl_pump_time : Z) (sd dd : dict R)
    (stream_locs drawdown_locs : option (dict (R * R))) (sa : dict R)
    (well : Well.t) :
  Well.init well_loc well_status T S Q depletion_years theis_dd_time
    depl_pump_time (Some sd) (Some dd) stream_locs drawdown_locs (Some sa)
  = Ok well ->
  1 <= depletion_years ->
  Forall (fun p =>
            WellResponse.depl_pump_time (snd p) = -99999 /\
            fst (WellResponse.depletion (snd p)) = Raise ValueError /\
            WellResponse._depletion (snd (WellResponse.depletion (snd p)))
            = None)
    (Well.drawdown_responses well).
Proof.
  intros H Hy. apply well_init_inv in H.
  destruct H as (sd' & sa' & dd' & srs & _ & _ & E3 & _ & _ & _ & Hd & _).
  injection E3 as <-. rewrite Hd.
  destruct (make_drawdown_responses_layout T S Q theis_dd_time
              depletion_years dd 0) as (_ & _ & Hresp).
  apply Forall_forall. intros p Hin.
  destruct (Hresp p Hin) as (n & c & _ & ->).
  split; [reflexivity|].
  apply depletion_failed; [reflexivity|].
  destruct walton_registered as [depl_f Hf].
  rewrite (@calc_depletion_negative sps _ depl_f); [reflexivity | | | ].
  - exact Hf.
  - exact Hy.
  - reflexivity.
Qed.

End WrongRoles.

(** ** The superposition code with special values *)

Section SpecialValues.
Context {sps : Special}.
Local Open Scope Z_scope.

(** The two entries of the registry. *)
Lemma registered_method (k : string) (depl_f : IEEE.depl_fn) :
  getitem IEEE.ALL_DEPL_METHODS k = Ok depl_f ->
  (k = "glover"%string /\
   depl_f = fun T S a3 a4 Q =>
              (IEEE.XArr (IEEE._glover T S a3 a4 Q),
               IEEE.called "_glover" T S (IEEE.FloatArg a3)
                 (IEEE.IntArray a4) Q)) \/
  (k = "walton"%string /\
   depl_f = fun T S a3 a4 Q =>
              (IEEE._walton T S a3 a4 Q,
               IEEE.called "_walton" T S (IEEE.IntArray a4)
                 (IEEE.FloatArg a3) Q)).
Proof.
  unfold getitem, IEEE.ALL_DEPL_METHODS. cbn [dict_get].
  destruct (String.eqb_spec "glover" k) as [<-|_].
  { intros E. injection E as <-. now left. }
  destruct (String.eqb_spec "walton" k) as [<-|_]; [|discriminate].
  intros E. injection E as <-. now right.
Qed.

(** A registered method returns a scalar or an array of the length of the
    series. *)
Lemma registered_method_shape (k : string) (depl_f : IEEE.depl_fn) :
  getitem IEEE.ALL_DEPL_METHODS k = Ok depl_f ->
  forall (T S d : R) (s : list Z) (q : R),
    xshape_ok (length s) (fst (depl_f T S d s q)).
Proof.
  intros Hm T S d s q.
  destruct (registered_method _ Hm) as [[_ ->]|[_ ->]]; cbn [fst].
  - unfold IEEE._glover. simpl. apply length_map.
  - unfold IEEE._walton. destruct (Rlt_dec 0 d); simpl; auto.
    apply length_map.
Qed.

Lemma xiadd_ok (acc : list IEEE.xval) (v : IEEE.xnd) :
  xshape_ok (length acc) v ->
  exists acc', IEEE.iadd acc v = Ok acc' /\ length acc' = length acc.
Proof.
  destruct v as [x|l]; simpl; intros H.
  - eexists. split; [reflexivity|]. now rewrite length_map.
  - rewrite H, Nat.eqb_refl. eexists. split; [reflexivity|].
    now apply map2_length.
Qed.

Lemma xsum_evals_ok (f : list Z -> IEEE.xnd) (n : nat) :
  (forall s, length s = n -> xshape_ok n (f s)) ->
  forall (ss : list (list Z)) (acc : list IEEE.xval),
    (forall s, In s ss -> length s = n) -> length acc = n ->
    exists r, xsum_evals f ss acc = Ok r /\ length r = n.
Proof.
  intros Hf. induction ss as [|s ss IH]; intros acc Hss Hacc.
  - exists acc. now split.
  - pose proof (Hf s (Hss s (or_introl eq_refl))) as Sv.
    rewrite <- Hacc in Sv.
    destruct (xiadd_ok acc (f s) Sv) as [acc' [Ea La]].
    simpl. rewrite Ea. simpl.
    apply IH; [intros s' Hs'; apply Hss; now right | congruence].
Qed.

(** The loop over [zip(baseyears, imageyears)]: the two sums, and the calls
    it adds to the log, for each year the call on the base series and then
    the call on the image series. *)
Lemma accumulate_log (depl_f : IEEE.depl_fn) (w : WellResponse.t) (a : R) :
  WellResponse.stream_apportionment w = Some a ->
  let f := fun s =>
    depl_f (WellResponse.T_gpd_ft w) (WellResponse.S w)
      (WellResponse.dist w) s (WellResponse.Q w * a)%R in
  forall (bys iys : list (list Z)) (depl rech depl' rech' : list IEEE.xval)
         (log : list IEEE.call),
    length bys = length iys ->
    xsum_evals (fun s => fst (f s)) bys depl = Ok depl' ->
    xsum_evals (fun s => fst (f s)) iys rech = Ok rech' ->
    IEEE.accumulate depl_f w (combine bys iys) depl rech log
    = (Ok (depl', rech'),
       (log ++ flat_map (fun p => [snd (f (fst p)); snd (f (snd p))])
                 (combine bys iys))%list).
Proof.
  intros Ha f.
  induction bys as [|b bys IH];
    intros [|i iys] depl rech depl' rech' log L Hd Hr;
    simpl in L; try discriminate.
  - simpl in *. rewrite app_nil_r. congruence.
  - simpl in Hd, Hr. simpl combine. simpl IEEE.accumulate.
    unfold WellResponse.scaled_Q. rewrite Ha.
    fold (f b). fold (f i).
    destruct (f b) as [vb cb] eqn:Eb. destruct (f i) as [vi ci] eqn:Ei.
    cbn [fst snd] in *.
    destruct (IEEE.iadd depl vb) as [d1|]; simpl in Hd; [|discriminate].
    destruct (IEEE.iadd rech vi) as [r1|]; simpl in Hr; [|discriminate].
    rewrite (IH iys d1 r1 depl' rech')
      by (try assumption; now injection L).
    cbn [flat_map fst snd]. rewrite Eb, Ei. cbn [fst snd app].
    now rewrite <- app_assoc.
Qed.

Lemma flat_map_pairs {A B : Type} (g h : A -> B) (l : list A) :
  flat_map (fun p => [fst p; snd p]) (combine (map g l) (map h l))
  = flat_map (fun y => [g y; h y]) l.
Proof. induction l as [|x l IH]; simpl; congruence. Qed.

Lemma flat_map_calls {A B C : Type} (c : B -> C) (g h : A -> B)
    (l : list A) :
  flat_map (fun p => [c (fst p); c (snd p)]) (combine (map g l) (map h l))
  = map c (flat_map (fun y => [g y; h y]) l).
Proof. induction l as [|x l IH]; simpl; congruence. Qed.

(** The series of all years, built with a pumping offset of at most one
    year. *)
Lemma build_series_years (w : WellResponse.t) :
  1 <= WellResponse.depletion_years w ->
  0 <= WellResponse.depl_pump_time w <= 365 ->
  let N := 365 * WellResponse.depletion_years w in
  let ys := range 0 (WellResponse.depletion_years w) in
  let bases := map (fun y => shifted N (365 * y)) ys in
  let images :=
    map (fun y => shifted N (365 * y + WellResponse.depl_pump_time w)) ys in
  IEEE.build_series w = (Ok tt, with_years bases images w) /\
  nth 0%nat bases [] = arange 1 (N + 1).
Proof.
  intros Hy Hp N ys bases images.
  assert (HN : 0 <= N) by (unfold N; lia).
  assert (Eb : [arange 1 (N + 1)]
               ++ map (fun y => shifted N (365 * y))
                    (range 1 (WellResponse.depletion_years w)) = bases).
  { unfold bases, ys. rewrite (range_cons (a := 0)) by lia. simpl map.
    rewrite ?Z.mul_0_r. rewrite shifted_0 by assumption. reflexivity. }
  assert (Ei : [shifted N (WellResponse.depl_pump_time w)]
               ++ map (fun y => shifted N
                                  (365 * y + WellResponse.depl_pump_time w))
                    (range 1 (WellResponse.depletion_years w)) = images).
  { unfold images, ys. rewrite (range_cons (a := 0)) by lia. simpl map.
    rewrite ?Z.mul_0_r, ?Z.add_0_l. reflexivity. }
  split; [|now rewrite <- Eb].
  unfold IEEE.build_series.
  unfold bind at 1. unfold get at 1.
  unfold bind at 1. unfold modify at 1.
  unfold bind at 1. unfold modify at 1.
  unfold bind at 1. unfold lift at 1.
  fold N.
  rewrite (image0_array (N := N) (k := WellResponse.depl_pump_time w))
    by (unfold N; lia).
  unfold bind at 1. unfold modify at 1. rewrite years_start.
  rewrite (@years_loop N (WellResponse.depl_pump_time w)
             (range 1 (WellResponse.depletion_years w)) HN).
  2:{ intros y Hin. apply in_arange in Hin. unfold N. lia. }
  now rewrite Eb, Ei.
Qed.

(** With a method of the registry, a numeric apportionment and a pumping
    offset of at most one year: what [_calc_depletion] returns, the calls it
    makes and the state it leaves. *)
Lemma calc_depletion_calls (w : WellResponse.t) (depl_f : IEEE.depl_fn)
    (a : R) :
  getitem IEEE.ALL_DEPL_METHODS (lower (WellResponse.depl_method w))
  = Ok depl_f ->
  WellResponse.stream_apportionment w = Some a ->
  1 <= WellResponse.depletion_years w ->
  0 <= WellResponse.depl_pump_time w <= 365 ->
  let N := 365 * WellResponse.depletion_years w in
  let ys := range 0 (WellResponse.depletion_years w) in
  let bases := map (fun y => shifted N (365 * y)) ys in
  let images :=
    map (fun y => shifted N (365 * y + WellResponse.depl_pump_time w)) ys in
  let f := fun s =>
    depl_f (WellResponse.T_gpd_ft w) (WellResponse.S w)
      (WellResponse.dist w) s (WellResponse.Q w * a)%R in
  let zeros := repeat (IEEE.Fin 0) (Z.to_nat N) in
  exists depl rech,
    xsum_evals (fun s => fst (f s)) bases zeros = Ok depl /\
    xsum_evals (fun s => fst (f s)) images zeros = Ok rech /\
    length depl = Z.to_nat N /\ length rech = Z.to_nat N /\
    IEEE._calc_depletion w
    = (Ok (map2 IEEE.xsub depl rech),
       map (fun s => snd (f s))
         (flat_map
            (fun y => [shifted N (365 * y);
                       shifted N (365 * y + WellResponse.depl_pump_time w)])
            ys),
       with_years bases images w).
Proof.
  intros Hm Ha Hy Hp N ys bases images f zeros.
  assert (HN : 0 <= N) by (unfold N; lia).
  assert (Hys : forall y, In y ys -> 0 <= y < WellResponse.depletion_years w).
  { intros y Hin. now apply in_arange in Hin. }
  assert (Hf : forall s, length s = Z.to_nat N ->
            xshape_ok (Z.to_nat N) (fst (f s))).
  { intros s Ls. rewrite <- Ls. apply (registered_method_shape _ Hm). }
  destruct (xsum_evals_ok (fun s => fst (f s)) Hf bases zeros)
    as [depl [Ed Ld]].
  { intros s Hs. apply in_map_iff in Hs. destruct Hs as [y [<- Hin]].
    apply Hys in Hin. apply shifted_length. fold N. lia. }
  { unfold zeros. apply repeat_length. }
  destruct (xsum_evals_ok (fun s => fst (f s)) Hf images zeros)
    as [rech [Er Lr]].
  { intros s Hs. apply in_map_iff in Hs. destruct Hs as [y [<- Hin]].
    apply Hys in Hin. apply shifted_length. fold N. lia. }
  { unfold zeros. apply repeat_length. }
  exists depl, rech. repeat split; auto.
  destruct (build_series_years w Hy Hp) as [Eb E0].
  fold N ys bases images in Eb, E0.
  unfold IEEE._calc_depletion. rewrite Hm, Eb.
  replace (WellResponse.baseyears (with_years bases images w))
    with (Some bases) by reflexivity.
  replace (WellResponse.imageyears (with_years bases images w))
    with (Some images) by reflexivity.
  rewrite E0, arange_length. replace (N + 1 - 1) with N by lia. fold zeros.
  rewrite (@accumulate_log depl_f (with_years bases images w) a Ha
             bases images zeros zeros depl rech []).
  - cbn [fst snd app]. unfold bases, images.
    rewrite (flat_map_calls (fun s => snd (f s))). reflexivity.
  - unfold bases, images. now rewrite !length_map.
  - exact Ed.
  - exact Er.
Qed.

End SpecialValues.

(** ** Float arithmetic on the values that occur *)

Section FloatFacts.
Context {sps : Special}.
Local Open Scope R_scope.

Ltac decide_floats :=
  simpl in *; try reflexivity; try (exfalso; lra); try (f_equal; nra);
  match goal with
  | |- context [Req_EM_T ?a ?b] => destruct (Req_EM_T a b); decide_floats
  | |- context [Rlt_dec ?a ?b] => destruct (Rlt_dec a b); decide_floats
  | _ => idtac
  end.

Lemma xmul_nonneg (x y : R) :
  0 <= x -> 0 <= y -> IEEE.xmul (IEEE.Fin x) (IEEE.Fin y) = IEEE.Fin (x * y).
Proof. intros Hx Hy. unfold IEEE.xmul. decide_floats. Qed.

Lemma xadd_nonneg (x y : R) :
  0 <= x -> 0 <= y -> IEEE.xadd (IEEE.Fin x) (IEEE.Fin y) = IEEE.Fin (x + y).
Proof. intros Hx Hy. unfold IEEE.xadd. decide_floats. Qed.

Lemma xdiv_pos (x y : R) :
  0 <= x -> 0 < y -> IEEE.xdiv (IEEE.Fin x) (IEEE.Fin y) = IEEE.Fin (x / y).
Proof.
  intros Hx Hy. unfold IEEE.xdiv. decide_floats.
Qed.

Lemma xsqrt_nonneg (x : R) :
  0 <= x -> IEEE.xsqrt (IEEE.Fin x) = IEEE.Fin (sqrt x).
Proof. intros Hx. unfold IEEE.xsqrt. decide_floats. Qed.

Lemma xpow_nonneg (x : R) (n : nat) :
  0 <= x -> IEEE.xpow (IEEE.Fin x) (Datatypes.S n) = IEEE.Fin (x ^ Datatypes.S n).
Proof.
  intros Hx. induction n as [|n IH].
  - simpl. f_equal. lra.
  - change (IEEE.xpow (IEEE.Fin x) (Datatypes.S (Datatypes.S n)))
      with (IEEE.xmul (IEEE.Fin x) (IEEE.xpow (IEEE.Fin x) (Datatypes.S n))).
    rewrite IH, xmul_nonneg; [reflexivity | assumption | now apply pow_le].
Qed.

Lemma finite_xmul (a b : IEEE.xval) :
  IEEE.finite a = true -> IEEE.finite b = true ->
  IEEE.finite (IEEE.xmul a b) = true.
Proof.
  destruct a, b; try discriminate; intros _ _; unfold IEEE.xmul;
    decide_floats.
Qed.

Lemma finite_xadd (a b : IEEE.xval) :
  IEEE.finite a = true -> IEEE.finite b = true ->
  IEEE.finite (IEEE.xadd a b) = true.
Proof.
  destruct a, b; try discriminate; intros _ _; unfold IEEE.xadd;
    decide_floats.
Qed.

Lemma finite_xdiv (a : IEEE.xval) (c : R) :
  c <> 0 -> IEEE.finite a = true ->
  IEEE.finite (IEEE.xdiv a (IEEE.Fin c)) = true.
Proof.
  intros Hc. destruct a; try discriminate; intros _; unfold IEEE.xdiv;
    decide_floats.
Qed.


Lemma xsub_self (v : IEEE.xval) : IEEE.xsub v v = cancelled v.
Proof.
  destruct v as [x| | | |]; unfold IEEE.xsub, IEEE.xneg, IEEE.xadd, cancelled;
    decide_floats.
Qed.

Lemma map2_xsub_self (l : list IEEE.xval) :
  map2 IEEE.xsub l l = map cancelled l.
Proof.
  induction l as [|x l IH]; simpl; [reflexivity|].
  now rewrite IH, xsub_self.
Qed.


Lemma finite_is_zero (a : IEEE.xval) :
  IEEE.is_zero a = true -> IEEE.finite a = true.
Proof. destruct a; simpl; auto. Qed.

Lemma xmul_pos_inf (c : R) :
  0 < c -> IEEE.xmul (IEEE.Fin c) IEEE.PInf = IEEE.PInf.
Proof. intros Hc. unfold IEEE.xmul. decide_floats. Qed.

Lemma xpow_inf (n : nat) :
  IEEE.xpow IEEE.PInf (Datatypes.S n) = IEEE.PInf.
Proof.
  induction n as [|n IH]; [reflexivity|].
  change (IEEE.xpow IEEE.PInf (Datatypes.S (Datatypes.S n)))
    with (IEEE.xmul IEEE.PInf (IEEE.xpow IEEE.PInf (Datatypes.S n))).
  now rewrite IH.
Qed.

Ltac nonneg :=
  repeat first [ assumption | lra | apply pow_le | apply Rmult_le_pos
               | apply Rplus_le_le_0_compat ].

Lemma is_zero_zero (b : bool) : IEEE.is_zero (IEEE.zero b) = true.
Proof. destruct b; simpl; [reflexivity|]. now destruct (Req_EM_T 0 0). Qed.

Lemma xmul_zero_r (q : R) :
  IEEE.is_zero (IEEE.xmul (IEEE.Fin q) (IEEE.Fin 0)) = true.
Proof.
  unfold IEEE.xmul. cbn [IEEE.is_nan IEEE.is_inf orb andb].
  rewrite !andb_false_r. cbn [orb].
  replace (IEEE.is_zero (IEEE.Fin 0)) with true
    by (cbn [IEEE.is_zero]; now destruct (Req_EM_T 0 0)).
  rewrite orb_true_r. apply is_zero_zero.
Qed.

Lemma xdiv_zero_l (a : IEEE.xval) (c : R) :
  c <> 0 -> IEEE.is_zero a = true ->
  IEEE.is_zero (IEEE.xdiv a (IEEE.Fin c)) = true.
Proof.
  intros Hc Ha.
  assert (Hz : IEEE.is_zero (IEEE.Fin c) = false).
  { cbn [IEEE.is_zero]. now destruct (Req_EM_T c 0). }
  unfold IEEE.xdiv. rewrite Ha, Hz.
  destruct a; try discriminate; cbn [IEEE.is_nan IEEE.is_inf orb andb];
    apply is_zero_zero.
Qed.

Lemma xdiv_1_inf : IEEE.xdiv (IEEE.Fin 1) IEEE.PInf = IEEE.Fin 0.
Proof.
  unfold IEEE.xdiv. cbn [IEEE.is_nan IEEE.is_inf IEEE.is_zero IEEE.is_neg
                         orb andb].
  destruct (Req_EM_T 1 0) as [E|_]; [lra|].
  destruct (Rlt_dec 1 0) as [L|_]; [lra|]. reflexivity.
Qed.

(** At [G = +inf], where [1/J] is [1/inf], the value of [_walton] is a
    zero. *)
Lemma walton_value_inf (Q : R) :
  IEEE.is_zero (IEEE.walton_value Q IEEE.PInf) = true.
Proof.
  unfold IEEE.walton_value.
  rewrite !xpow_inf. rewrite !xmul_pos_inf by lra.
  cbv [IEEE.xadd IEEE.is_nan IEEE.is_inf orb andb].
  rewrite xpow_inf, xdiv_1_inf.
  repeat apply xdiv_zero_l; try lra. apply xmul_zero_r.
Qed.

(** At a finite [G >= 0] the value of [_walton] is finite. *)
Lemma walton_value_finite (Q g : R) :
  0 <= g -> IEEE.finite (IEEE.walton_value Q (IEEE.Fin g)) = true.
Proof.
  intros Hg. unfold IEEE.walton_value.
  rewrite !xpow_nonneg by assumption.
  rewrite !xmul_nonneg by nonneg.
  rewrite !xadd_nonneg by nonneg.
  rewrite xpow_nonneg by nonneg.
  rewrite xdiv_pos; [|lra|].
  - repeat apply finite_xdiv; try lra. now apply finite_xmul.
  - apply pow_lt.
    assert (H2 := pow_le g 2 Hg). assert (H3 := pow_le g 3 Hg).
    assert (H4 := pow_le g 4 Hg). assert (H5 := pow_le g 5 Hg).
    assert (H6 := pow_le g 6 Hg).
    lra.
Qed.

(** [G] in the array branch of [_walton], for positive [T], [S] and
    [dist]: [+inf] at time 0, where [dist] is divided by 0, and a finite
    value otherwise. *)
Lemma walton_G_value (T S dist : R) (t : Z) :
  0 < T -> 0 < S -> 0 < dist -> (0 <= t)%Z ->
  let G :=
    IEEE.xdiv (IEEE.Fin dist)
      (IEEE.xsqrt (IEEE.xdiv (IEEE.xmul (IEEE.xmul (IEEE.Fin 0.535)
                                           (IEEE.Fin (IZR t)))
                                (IEEE.Fin T))
                     (IEEE.Fin S))) in
  (t = 0%Z -> G = IEEE.PInf) /\
  ((0 < t)%Z -> exists g, 0 <= g /\ G = IEEE.Fin g).
Proof.
  intros HT HS Hd Ht G. subst G.
  assert (Hr : 0 <= IZR t) by now apply IZR_le.
  rewrite !xmul_nonneg by nonneg.
  rewrite xdiv_pos by nonneg.
  assert (Hx : 0 <= 0.535 * IZR t * T / S).
  { apply Rmult_le_pos; [nonneg|]. apply Rlt_le. now apply Rinv_0_lt_compat. }
  rewrite xsqrt_nonneg by assumption.
  split.
  - intros ->.
    replace (0.535 * 0 * T / S) with 0 by (unfold Rdiv; ring).
    rewrite sqrt_0. unfold IEEE.xdiv. decide_floats.
  - intros Hp.
    assert (Hr' : 0 < IZR t) by now apply IZR_lt.
    assert (Hx' : 0 < 0.535 * IZR t * T / S).
    { apply Rdiv_lt_0_compat; [|assumption].
      apply Rmult_lt_0_compat; [|assumption].
      apply Rmult_lt_0_compat; [lra|assumption]. }
    assert (Hs : 0 < sqrt (0.535 * IZR t * T / S)) by now apply sqrt_lt_R0.
    rewrite xdiv_pos by lra.
    eexists. split; [|reflexivity].
    apply Rlt_le. now apply Rdiv_lt_0_compat.
Qed.

(** For positive [T] and [S] and times that are not negative every value
    that [_walton] returns is finite. *)
Lemma walton_finite (T S dist : R) (s : list Z) (Q : R) :
  0 < T -> 0 < S -> (forall t, In t s -> (0 <= t)%Z) ->
  forall v, In v (entries (IEEE._walton T S dist s Q)) ->
            IEEE.finite v = true.
Proof.
  intros HT HS Hs v. unfold IEEE._walton.
  destruct (Rlt_dec 0 dist) as [Hd|_]; cbn [entries].
  - intros Hv. apply in_map_iff in Hv. destruct Hv as [t [<- Hin]].
    apply Hs in Hin.
    destruct (walton_G_value HT HS Hd Hin) as [H0 Hp].
    destruct (Z.eq_dec t 0) as [E|E].
    + rewrite (H0 E). apply finite_is_zero, walton_value_inf.
    + destruct Hp as [g [Hg ->]]; [lia|]. now apply walton_value_finite.
  - intros [<-|[]]. apply walton_value_finite. lra.
Qed.


End FloatFacts.

(** ** Sums of special values *)

Section FloatSums.
Context {sps : Special}.

Lemma xadd_nan_r (a : IEEE.xval) : IEEE.xadd a IEEE.NaN = IEEE.NaN.
Proof. unfold IEEE.xadd. cbn [IEEE.is_nan]. now rewrite orb_true_r. Qed.

Lemma is_zero_xmul_l (a b : IEEE.xval) :
  IEEE.is_zero a = true -> IEEE.finite b = true ->
  IEEE.is_zero (IEEE.xmul a b) = true.
Proof.
  intros Ha Hb. unfold IEEE.xmul. rewrite Ha.
  destruct a, b; try discriminate;
    cbn [IEEE.is_nan IEEE.is_inf orb andb]; apply is_zero_zero.
Qed.

Lemma is_zero_xmul_r (a b : IEEE.xval) :
  IEEE.finite a = true -> IEEE.is_zero b = true ->
  IEEE.is_zero (IEEE.xmul a b) = true.
Proof.
  intros Ha Hb. unfold IEEE.xmul. rewrite Hb.
  destruct a, b; try discriminate;
    cbn [IEEE.is_nan IEEE.is_inf orb andb];
    rewrite ?andb_false_r, ?orb_true_r; cbn [orb]; apply is_zero_zero.
Qed.

Lemma xdiv_zero_zero (a b : IEEE.xval) :
  IEEE.is_zero a = true -> IEEE.is_zero b = true ->
  IEEE.xdiv a b = IEEE.NaN.
Proof.
  intros Ha Hb. unfold IEEE.xdiv. rewrite Ha, Hb.
  destruct a, b; try discriminate; reflexivity.
Qed.

Lemma is_zero_Fin_0 : IEEE.is_zero (IEEE.Fin 0) = true.
Proof. exact (is_zero_zero false). Qed.

(** [_glover] with the time 0 at an entry 0 of [dist]: [0/0]. *)
Lemma glover_nan (T S Q : R) (dist : list Z) (i : nat) :
  nth_error dist i = Some 0%Z ->
  nth_error (IEEE._glover T S 0 dist Q) i = Some IEEE.NaN.
Proof.
  intros Hi. unfold IEEE._glover. rewrite nth_error_map, Hi.
  cbn [option_map]. f_equal.
  rewrite xdiv_zero_zero; [reflexivity| |].
  - apply is_zero_xmul_l; [apply is_zero_Fin_0 | reflexivity].
  - apply is_zero_xmul_r; [|apply is_zero_Fin_0].
    apply finite_xmul; reflexivity.
Qed.

Lemma nth_map2 {A B C : Type} (f : A -> B -> C) (l1 : list A) (l2 : list B)
    (i : nat) (d1 : A) (d2 : B) (d : C) :
  length l1 = length l2 -> (i < length l1)%nat ->
  nth i (map2 f l1 l2) d = f (nth i l1 d1) (nth i l2 d2).
Proof.
  revert l2 i. induction l1 as [|a l1 IH]; intros [|b l2] [|i] L Hi;
    simpl in *; try discriminate; try lia; auto.
  apply IH; [congruence | lia].
Qed.

(** One entry of [acc += v]. *)
Lemma iadd_nth (acc acc' : list IEEE.xval) (v : IEEE.xnd) (i : nat) :
  IEEE.iadd acc v = Ok acc' -> xshape_ok (length acc) v ->
  (i < length acc)%nat ->
  nth i acc' IEEE.NaN
  = IEEE.xadd (nth i acc IEEE.NaN)
      (match v with
       | IEEE.XScalar x => x
       | IEEE.XArr l => nth i l IEEE.NaN
       end).
Proof.
  destruct v as [x|l]; simpl; intros E H Hi.
  - injection E as <-.
    change IEEE.NaN with ((fun a => IEEE.xadd a x) IEEE.NaN) at 1.
    now rewrite map_nth.
  - rewrite H, Nat.eqb_refl in E. injection E as <-.
    apply nth_map2; auto.
Qed.

(** NaN stays: an entry that one of the summed values has as NaN is NaN in
    the sum. *)
Lemma xsum_evals_nan (f : list Z -> IEEE.xnd) (i : nat) (ss : list (list Z)) :
  forall acc total : list IEEE.xval,
    xsum_evals f ss acc = Ok total ->
    (forall s, In s ss -> xshape_ok (length acc) (f s)) ->
    (i < length acc)%nat ->
    (nth i acc IEEE.NaN = IEEE.NaN \/
     exists s l, In s ss /\ f s = IEEE.XArr l /\
                 nth i l IEEE.NaN = IEEE.NaN) ->
    nth i total IEEE.NaN = IEEE.NaN.
Proof.
  induction ss as [|s ss IH]; intros acc total E Hs Hi H.
  - simpl in E. injection E as <-.
    destruct H as [H|(s & l & [] & _)]. exact H.
  - simpl in E.
    destruct (xiadd_ok acc (f s) (Hs s (or_introl eq_refl)))
      as [acc1 [E1 L1]].
    rewrite E1 in E. simpl in E.
    pose proof (@iadd_nth acc acc1 (f s) i E1 (Hs s (or_introl eq_refl)) Hi)
      as Hn.
    apply (IH acc1 total E).
    + intros s' Hs'. rewrite L1. apply Hs. now right.
    + now rewrite L1.
    + destruct H as [H|(s0 & l & [<-|Hin] & Ef & Hl)].
      * left. now rewrite Hn, H.
      * left. rewrite Hn, Ef, Hl. apply xadd_nan_r.
      * right. now exists s0, l.
Qed.

Lemma map2_finite (l1 l2 : list IEEE.xval) :
  Forall (fun x => IEEE.finite x = true) l1 ->
  Forall (fun x => IEEE.finite x = true) l2 ->
  Forall (fun x => IEEE.finite x = true) (map2 IEEE.xadd l1 l2).
Proof.
  intros H1. revert l2. induction H1 as [|a l1 Ha H1 IH]; intros l2 H2.
  - destruct l2; constructor.
  - destruct H2 as [|b l2 Hb H2]; simpl; constructor.
    + now apply finite_xadd.
    + now apply IH.
Qed.

Lemma iadd_finite (acc acc' : list IEEE.xval) (v : IEEE.xnd) :
  Forall (fun x => IEEE.finite x = true) acc ->
  (forall x, In x (entries v) -> IEEE.finite x = true) ->
  IEEE.iadd acc v = Ok acc' ->
  Forall (fun x => IEEE.finite x = true) acc'.
Proof.
  intros Ha Hv. destruct v as [x|l]; simpl in *.
  - intros E. injection E as <-. apply Forall_map.
    eapply Forall_impl; [|exact Ha]. intros y Hy.
    apply finite_xadd; auto.
  - assert (Hl : Forall (fun x => IEEE.finite x = true) l)
      by now apply Forall_forall.
    destruct (length l =? length acc)%nat.
    + intros E. injection E as <-. now apply map2_finite.
    + destruct l as [|x [|y l]]; try discriminate.
      intros E. injection E as <-. apply Forall_map.
      eapply Forall_impl; [|exact Ha]. intros y Hy.
      apply finite_xadd; auto. apply Hv. now left.
Qed.

(** A sum of finite values is finite. *)
Lemma xsum_evals_finite (f : list Z -> IEEE.xnd) (ss : list (list Z)) :
  (forall s x, In s ss -> In x (entries (f s)) -> IEEE.finite x = true) ->
  forall acc total : list IEEE.xval,
    Forall (fun x => IEEE.finite x = true) acc ->
    xsum_evals f ss acc = Ok total ->
    Forall (fun x => IEEE.finite x = true) total.
Proof.
  induction ss as [|s ss IH]; intros Hf acc total Ha E.
  - simpl in E. now injection E as <-.
  - simpl in E.
    destruct (IEEE.iadd acc (f s)) as [acc1|] eqn:E1; [|discriminate].
    simpl in E. apply (IH (fun s' x Hs' => Hf s' x (or_intror Hs')) acc1).
    + apply (@iadd_finite acc acc1 (f s) Ha
               (fun x => Hf s x (or_introl eq_refl)) E1).
    + exact E.
Qed.

Lemma map_cancelled_finite (l : list IEEE.xval) :
  Forall (fun x => IEEE.finite x = true) l ->
  map cancelled l = repeat (IEEE.Fin 0) (length l).
Proof.
  induction 1 as [|x l Hx _ IH]; simpl; [reflexivity|].
  rewrite IH. unfold cancelled. now rewrite Hx.
Qed.

End FloatSums.

(** ** The calls of the depletion method, and the offset of 0 days *)

Section CallsAndOffsets.
Context {sps : Special}.
Local Open Scope Z_scope.



(** With an offset of 0 days the two sums are one and the same array
    [total], and [_calc_depletion] returns [total - total]. *)
Lemma zero_offset_run (w : WellResponse.t) (depl_f : IEEE.depl_fn) (a : R) :
  getitem IEEE.ALL_DEPL_METHODS (lower (WellResponse.depl_method w))
  = Ok depl_f ->
  WellResponse.stream_apportionment w = Some a ->
  1 <= WellResponse.depletion_years w ->
  WellResponse.depl_pump_time w = 0 ->
  let N := 365 * WellResponse.depletion_years w in
  let ys := range 0 (WellResponse.depletion_years w) in
  let bases := map (fun y => shifted N (365 * y)) ys in
  let f := fun s =>
    fst (depl_f (WellResponse.T_gpd_ft w) (WellResponse.S w)
           (WellResponse.dist w) s (WellResponse.Q w * a)%R) in
  exists total,
    xsum_evals f bases (repeat (IEEE.Fin 0) (Z.to_nat N)) = Ok total /\
    length total = Z.to_nat N /\
    fst (fst (IEEE._calc_depletion w)) = Ok (map2 IEEE.xsub total total) /\
    snd (IEEE._calc_depletion w) = with_years bases bases w.
Proof.
  intros Hm Ha Hy Hp N ys bases f.
  assert (Hp' : 0 <= WellResponse.depl_pump_time w <= 365) by lia.
  assert (Ei : map (fun y => shifted N (365 * y + WellResponse.depl_pump_time w))
                 ys = bases).
  { unfold bases. apply map_ext. intros y. rewrite Hp. f_equal. lia. }
  destruct (calc_depletion_calls w Hm Ha Hy Hp')
    as (depl & rech & Ed & Er & Ld & _ & E).
  fold N ys in Ed, Er, E. rewrite Ei in Er, E. fold bases in Ed, Er, E.
  fold f in Ed, Er. rewrite Ed in Er. injection Er as <-.
  exists depl. rewrite E. repeat split; auto.
Qed.


(** C9 (amended).  For a method of the registry, a numeric apportionment,
    at least one year and a pumping offset of 0 days, the image series of
    every year is the base series, the accumulated recharge is the
    accumulated depletion, one array [total], and the series returned is
    [total - total]: zero at the days at which [total] is finite, NaN at
    the days at which it is an infinity or NaN.  With ['walton'] and
    positive [T] and [S] every sum is finite and the series returned is zero
    at every day. *)
Theorem zero_offset_cancels_finite_sums (w : WellResponse.t)
    (depl_f : IEEE.depl_fn) (a : R) :
  getitem IEEE.ALL_DEPL_METHODS (lower (WellResponse.depl_method w))
  = Ok depl_f ->
  WellResponse.stream_apportionment w = Some a ->
  1 <= WellResponse.depletion_years w ->
  WellResponse.depl_pump_time w = 0 ->
  let N := 365 * WellResponse.depletion_years w in
  let bases :=
    map (fun y => shifted N (365 * y))
      (range 0 (WellResponse.depletion_years w)) in
  let f := fun s =>
    fst (depl_f (WellResponse.T_gpd_ft w) (WellResponse.S w)
           (WellResponse.dist w) s (WellResponse.Q w * a)%R) in
  let run := IEEE._calc_depletion w in
  WellResponse.baseyears (snd run) = Some bases /\
  WellResponse.imageyears (snd run) = Some bases /\
  (exists total,
     xsum_evals f bases (repeat (IEEE.Fin 0) (Z.to_nat N)) = Ok total /\
     length total = Z.to_nat N /\
     fst (fst run) = Ok (map2 IEEE.xsub total total) /\
     fst (fst run) = Ok (map cancelled total)) /\
  (lower (WellResponse.depl_method w) = "walton"%string ->
   (0 < WellResponse.T_gpd_ft w)%R -> (0 < WellResponse.S w)%R ->
   fst (fst run) = Ok (repeat (IEEE.Fin 0) (Z.to_nat N))).
Proof.
  intros Hm Ha Hy Hp N bases f run. subst run.
  destruct (zero_offset_run w Hm Ha Hy Hp) as (total & Et & Lt & E & Ew).
  fold N bases f in Et, Ew.
  rewrite Ew. split; [reflexivity|]. split; [reflexivity|]. split.
  - exists total. rewrite E. repeat split; auto.
    now rewrite map2_xsub_self.
  - intros Hw HT HS. rewrite E, map2_xsub_self.
    rewrite map_cancelled_finite, Lt; [reflexivity|].
    apply (xsum_evals_finite f bases) with (acc := repeat (IEEE.Fin 0) (Z.to_nat N));
      [| |exact Et].
    + intros s x Hs. unfold f.
      destruct (registered_method _ Hm) as [[Hk _]|[_ ->]];
        [rewrite Hw in Hk; discriminate|].
      cbn [fst]. apply walton_finite; try assumption.
      intros t Ht. apply in_map_iff in Hs. destruct Hs as [y [<- Hin]].
      apply in_arange in Hin. apply in_shifted in Ht; unfold N; lia.
    + apply Forall_forall. intros x Hx. apply repeat_spec in Hx. now subst x.
Qed.

End CallsAndOffsets.

Lemma series_entries_witness :
  let w := WellResponse.init "creek" "stream" 1000 0.2 300 50000 (Some 1%R)
             "Theis" "Walton" (PyFloat 10) 100 2 in
  exists bys,
    WellResponse.baseyears
      (snd (WellResponse._calc_depletion (sps := sps_example) w)) = Some bys /\
    len bys = 2%Z.
Proof.
  intros w.
  destruct (@series_entries sps_example w
              (fun T S a3 a4 Q => Ok (_walton T S a3 a4 Q)))
    as (bys & iys & Hb & _ & Lb & _).
  - reflexivity.
  - vm_compute. discriminate.
  - vm_compute. split; discriminate.
  - exists bys. split; assumption.
Defined.

Lemma offset_beyond_one_year_raises_witness :
  let w := WellResponse.init "creek" "stream" 1000 0.2 300 50000 (Some 1%R)
             "Theis" "Walton" (PyFloat 10) 500 3 in
  fst (WellResponse._calc_depletion (sps := sps_example) w)
  = Raise ValueError.
Proof.
  intros w.
  destruct (@offset_beyond_one_year_raises sps_example w
              (fun T S a3 a4 Q => Ok (_walton T S a3 a4 Q))) as [H _].
  - reflexivity.
  - vm_compute. discriminate.
  - vm_compute. split; [reflexivity | discriminate].
  - exact H.
Defined.

Lemma missing_apportionment_raises_witness :
  let w := WellResponse.init "creek" "stream" 1000 0.2 300 50000 None
             "Theis" "Walton" (PyFloat 10) 100 1 in
  fst (WellResponse._calc_depletion (sps := sps_example) w)
  = Raise TypeError.
Proof.
  intros w.
  destruct (@missing_apportionment_raises sps_example w
              (fun T S a3 a4 Q => Ok (_walton T S a3 a4 Q))) as [H _].
  - reflexivity.
  - reflexivity.
  - vm_compute. discriminate.
  - vm_compute. split; discriminate.
  - exact H.
Defined.

Lemma walton_on_the_stream_cancels_witness :
  let w := WellResponse.init "creek" "stream" 1000 0.2 0 50000 (Some 1%R)
             "Theis" "Walton" (PyFloat 10) 100 1 in
  fst (WellResponse._calc_depletion (sps := sps_example) w)
  = Ok (repeat 0%R 365).
Proof.
  intros w.
  apply (@walton_on_the_stream_cancels sps_example w 1%R).
  - reflexivity.
  - reflexivity.
  - vm_compute. discriminate.
  - vm_compute. split; discriminate.
  - simpl. lra.
Defined.


Lemma well_init_layout_witness :
  exists well,
    Well.init None "pending" 1000 0.2 50000 2 (PyFloat 10) 100
      (Some [("creekA"%string, 500%R); ("creekB"%string, 800%R)])
      (Some [("obs"%string, 300%R)]) None None
      (Some [("creekA"%string, 0.6%R); ("creekB"%string, 0.4%R)]) = Ok well /\
    map fst (Well.stream_responses well) = [1; 2]%Z /\
    Well.stream_response_names well = [].
Proof.
  destruct (Well.init None "pending" 1000 0.2 50000 2 (PyFloat 10) 100
      (Some [("creekA"%string, 500%R); ("creekB"%string, 800%R)])
      (Some [("obs"%string, 300%R)]) None None
      (Some [("creekA"%string, 0.6%R); ("creekB"%string, 0.4%R)]))
    as [well|e] eqn:E.
  - exists well. split; [reflexivity|].
    destruct (well_init_layout _ _ _ _ _ _ _ _ _ _ _ _ _ E)
      as (H1 & _ & _ & _ & H5 & _).
    split; assumption.
  - vm_compute in E. discriminate E.
Defined.

Lemma well_drawdown_values_witness :
  exists well,
    Well.init None "pending" 1000 0.2 50000 2 (PyFloat 10) 100
      (Some [("creekA"%string, 500%R)]) (Some [("obs"%string, 300%R)])
      None None (Some [("creekA"%string, 1%R)]) = Ok well /\
    exists d, fst (Well.drawdown (sps := sps_example) well) = Ok d.
Proof.
  destruct (Well.init None "pending" 1000 0.2 50000 2 (PyFloat 10) 100
      (Some [("creekA"%string, 500%R)]) (Some [("obs"%string, 300%R)])
      None None (Some [("creekA"%string, 1%R)])) as [well|e] eqn:E.
  - exists well. split; [reflexivity|].
    destruct (@well_drawdown_values sps_example _ _ _ _ _ _ _ _ _ _ _ _ _ _ E)
      as (d & H & _).
    + apply Rgt_not_eq. lra.
    + simpl. lra.
    + now exists d.
  - vm_compute in E. discriminate E.
Defined.

Lemma well_depletion_arrays_witness :
  exists well,
    Well.init None "pending" 1000 0.2 50000 2 (PyFloat 10) 100
      (Some [("creekA"%string, 500%R)]) (Some [("obs"%string, 300%R)])
      None None (Some [("creekA"%string, 1%R)]) = Ok well /\
    exists d, fst (Well.depletion (sps := sps_example) well) = Ok d /\
              Forall (fun kv => len (snd kv) = 1825%Z) d.
Proof.
  destruct (Well.init None "pending" 1000 0.2 50000 2 (PyFloat 10) 100
      (Some [("creekA"%string, 500%R)]) (Some [("obs"%string, 300%R)])
      None None (Some [("creekA"%string, 1%R)])) as [well|e] eqn:E.
  - exists well. split; [reflexivity|].
    destruct (@well_depletion_arrays sps_example _ _ _ _ _ _ _ _ _ _ _ _ _ _ E)
      as (d & H & _ & _ & F & _).
    + vm_compute. split; discriminate.
    + exists d. split; assumption.
  - vm_compute in E. discriminate E.
Defined.

Lemma well_depletion_failure_is_cached_witness :
  exists well,
    Well.init None "pending" 1000 0.2 50000 5 (PyFloat 10)
      Well.default_depl_pump_time
      (Some [("creekA"%string, 500%R)]) (Some [("obs"%string, 300%R)])
      None None (Some [("creekA"%string, 1%R)]) = Ok well /\
    fst (Well.depletion (sps := sps_example) well) = Raise ValueError /\
    fst (Well.depletion (sps := sps_example)
           (snd (Well.depletion (sps := sps_example) well))) = Ok [].
Proof.
  destruct (Well.init None "pending" 1000 0.2 50000 5 (PyFloat 10)
      Well.default_depl_pump_time
      (Some [("creekA"%string, 500%R)]) (Some [("obs"%string, 300%R)])
      None None (Some [("creekA"%string, 1%R)])) as [well|e] eqn:E.
  - exists well. split; [reflexivity|].
    destruct (@well_depletion_failure_is_cached sps_example
                _ _ _ _ _ _ _ _ _ _ _ _ _ _ E) as (H1 & _ & H3).
    + discriminate.
    + reflexivity.
    + split; [exact H1|]. now rewrite H3.
  - vm_compute in E. discriminate E.
Defined.

Lemma drawdown_response_has_no_depletion_witness :
  exists well,
    Well.init None "pending" 1000 0.2 50000 2 (PyFloat 10) 100
      (Some [("creekA"%string, 500%R)]) (Some [("obs"%string, 300%R)])
      None None (Some [("creekA"%string, 1%R)]) = Ok well /\
    Forall (fun p =>
              fst (WellResponse.depletion (sps := sps_example) (snd p))
              = Raise ValueError)
      (Well.drawdown_responses well).
Proof.
  destruct (Well.init None "pending" 1000 0.2 50000 2 (PyFloat 10) 100
      (Some [("creekA"%string, 500%R)]) (Some [("obs"%string, 300%R)])
      None None (Some [("creekA"%string, 1%R)])) as [well|e] eqn:E.
  - exists well. split; [reflexivity|].
    assert (H := @drawdown_response_has_no_depletion sps_example
                   _ _ _ _ _ _ _ _ _ _ _ _ _ _ E).
    eapply Forall_impl; [|apply H; vm_compute; discriminate].
    intros p (_ & Hp & _). exact Hp.
  - vm_compute in E. discriminate E.
Defined.


Lemma zero_offset_cancels_finite_sums_witness :
  let w := WellResponse.init "creek" "stream" 1000 0.2 300 50000 (Some 1%R)
             "Theis" "Walton" (PyFloat 10) 0 2 in
  fst (fst (IEEE._calc_depletion (sps := sps_example) w))
  = Ok (repeat (IEEE.Fin 0) 730).
Proof.
  intros w.
  destruct (@zero_offset_cancels_finite_sums sps_example w
              (fun T S a3 a4 Q =>
                 (IEEE._walton T S a3 a4 Q,
                  IEEE.called "_walton" T S (IEEE.IntArray a4)
                    (IEEE.FloatArg a3) Q))
              1%R)
    as (_ & _ & _ & H).
  - reflexivity.
  - reflexivity.
  - vm_compute. discriminate.
  - reflexivity.
  - apply H; [reflexivity | simpl; lra | simpl; lra].
Defined.


(** C9, as stated, fails: ['glover'] for a response on the stream
    ([dist = 0]), two years and no pumping offset.  At day 1 the base series
    of year 1 holds a 0, [_glover] divides [0] by [0], and the series
    returned holds NaN there. *)
Lemma glover_on_the_stream_returns_nan :
  let w := WellResponse.init "creek" "stream" 1000 0.2 0 50000 (Some 1%R)
             "Theis" "glover" (PyFloat 10) 0 2 in
  (1 <= WellResponse.depletion_years w)%Z /\
  WellResponse.depl_pump_time w = 0%Z /\
  exists v,
    fst (fst (IEEE._calc_depletion (sps := sps_example) w)) = Ok v /\
    nth 0 v (IEEE.Fin 0) = IEEE.NaN.
Proof.
  intros w.
  assert (Hy : (1 <= WellResponse.depletion_years w)%Z)
    by (vm_compute; discriminate).
  split; [exact Hy|]. split; [reflexivity|].
  destruct (@zero_offset_run sps_example w
              (fun T S a3 a4 Q =>
                 (IEEE.XArr (IEEE._glover T S a3 a4 Q),
                  IEEE.called "_glover" T S (IEEE.FloatArg a3)
                    (IEEE.IntArray a4) Q))
              1%R eq_refl eq_refl Hy eq_refl)
    as (total & Et & Lt & E & _).
  exists (map cancelled total). split; [now rewrite E, map2_xsub_self|].
  assert (L : (0 < length total)%nat) by (rewrite Lt; vm_compute; lia).
  change (IEEE.Fin 0) with (cancelled (IEEE.Fin 0)). rewrite map_nth.
  rewrite (nth_indep total (IEEE.Fin 0) IEEE.NaN L).
  rewrite (@xsum_evals_nan _ 0%nat _ _ _ Et); [reflexivity| | |].
  - intros s Hs. apply in_map_iff in Hs. destruct Hs as [y [<- Hin]].
    apply in_arange in Hin.
    cbn [fst xshape_ok]. unfold IEEE._glover.
    rewrite length_map, repeat_length. apply shifted_length. lia.
  - now rewrite repeat_length, <- Lt.
  - right.
    exists (shifted (365 * WellResponse.depletion_years w) (365 * 1)).
    eexists. split; [|split; [reflexivity|]].
    + apply in_map_iff. exists 1%Z. split; [reflexivity|].
      apply in_arange. vm_compute. split; [discriminate | reflexivity].
    + apply nth_error_nth. change (WellResponse.dist w) with 0%R.
      apply glover_nan. vm_compute. reflexivity.
Qed.
